(** * Verification of the coinplex-sdk signing, decryption, dispatch and
      scheduling core (shallow embedding of the JavaScript sources). *)

From Stdlib Require Import ZArith String Ascii.
From Stdlib Require Import QArith Qround Lqa.
From stdpp Require Import base list sorting gmap.

Open Scope Z_scope.

(* ================================================================== *)
(** ** JavaScript strings and values *)

(** A JavaScript string is a sequence of UTF-16 code units. *)
Abbreviation jsstr := (list Z).

(** Literal helper: the code units of an ASCII Rocq string. *)
Fixpoint js (s : string) : jsstr :=
  match s with
  | EmptyString => []
  | String c s' => Z.of_nat (nat_of_ascii c) :: js s'
  end.

(** Scalar JavaScript values (numbers are the integral ones the SDK uses:
    timestamps, counters). *)
Inductive jsval :=
| JUndefined
| JNull
| JBool (b : bool)
| JNum (z : Z)
| JStr (s : jsstr).

(** Truthiness ([!x] is [negb (truthy x)]). *)
Definition truthy (v : jsval) : bool :=
  match v with
  | JUndefined | JNull => false
  | JBool b => b
  | JNum z => negb (z =? 0)
  | JStr s => negb (bool_decide (s = []))
  end.

(** Decimal rendering of an integral number ([String(n)]). *)
Fixpoint digits_aux (fuel : nat) (n : Z) (acc : jsstr) : jsstr :=
  match fuel with
  | O => acc
  | S f =>
      let acc' := (48 + n mod 10) :: acc in
      if n <? 10 then acc' else digits_aux f (n / 10) acc'
  end.

Definition num_to_string (z : Z) : jsstr :=
  let fuel := S (Z.to_nat (Z.log2 (Z.abs z))) in
  if z <? 0 then 45 :: digits_aux fuel (- z) [] else digits_aux fuel z [].

(** [`${v}`] *)
Definition to_js_string (v : jsval) : jsstr :=
  match v with
  | JUndefined => js "undefined"
  | JNull => js "null"
  | JBool true => js "true"
  | JBool false => js "false"
  | JNum z => num_to_string z
  | JStr s => s
  end.

(** A plain object with scalar properties: its own properties in
    enumeration order, keys pairwise distinct. *)
Abbreviation jsobj := (list (jsstr * jsval)).

Definition obj_keys (o : jsobj) : list jsstr := map fst o.

(** [o[k]]: [undefined] when absent. *)
Fixpoint obj_get (o : jsobj) (k : jsstr) : jsval :=
  match o with
  | [] => JUndefined
  | (k', v) :: o' => if bool_decide (k = k') then v else obj_get o' k
  end.

(** [o[k] = v]: overwrite in place, or append a new property. *)
Fixpoint obj_set (o : jsobj) (k : jsstr) (v : jsval) : jsobj :=
  match o with
  | [] => [(k, v)]
  | (k', v') :: o' =>
      if bool_decide (k = k') then (k', v) :: o' else (k', v') :: obj_set o' k v
  end.

(** [delete o[k]] *)
Fixpoint obj_delete (o : jsobj) (k : jsstr) : jsobj :=
  match o with
  | [] => []
  | (k', v') :: o' =>
      if bool_decide (k = k') then obj_delete o' k else (k', v') :: obj_delete o' k
  end.

(* ================================================================== *)
(** ** Default [Array.prototype.sort] on strings: UTF-16 code-unit order *)

Fixpoint lex_leb (a b : jsstr) : bool :=
  match a, b with
  | [], _ => true
  | _ :: _, [] => false
  | x :: a', y :: b' => (x <? y) || ((x =? y) && lex_leb a' b')
  end.

Definition lex_le (a b : jsstr) : Prop := lex_leb a b = true.

#[global] Instance lex_le_dec : RelDecision lex_le.
Proof. intros a b. unfold lex_le. apply _. Defined.

(** [Object.keys(o).sort()] (a stable merge sort, as V8's). *)
Definition js_sort_strings (l : list jsstr) : list jsstr := merge_sort lex_le l.

(* ================================================================== *)
(** ** [crypto.createHmac('sha256', secret).update(s).digest('hex')] *)

Module Sha256.

Definition mask32 (x : Z) : Z := Z.land x (2 ^ 32 - 1).
Definition add32 (x y : Z) : Z := mask32 (x + y).
Definition rotr (x : Z) (n : Z) : Z :=
  Z.lor (Z.shiftr x n) (mask32 (Z.shiftl x (32 - n))).

Definition ch (e f g : Z) : Z := Z.lxor (Z.land e f) (Z.land (mask32 (Z.lnot e)) g).
Definition maj (a b c : Z) : Z :=
  Z.lxor (Z.lxor (Z.land a b) (Z.land a c)) (Z.land b c).
Definition bsig0 (a : Z) : Z := Z.lxor (Z.lxor (rotr a 2) (rotr a 13)) (rotr a 22).
Definition bsig1 (e : Z) : Z := Z.lxor (Z.lxor (rotr e 6) (rotr e 11)) (rotr e 25).
Definition ssig0 (w : Z) : Z := Z.lxor (Z.lxor (rotr w 7) (rotr w 18)) (Z.shiftr w 3).
Definition ssig1 (w : Z) : Z := Z.lxor (Z.lxor (rotr w 17) (rotr w 19)) (Z.shiftr w 10).

(** Hexadecimal digits, lower case. *)
Definition hex_val (c : ascii) : Z :=
  let n := Z.of_nat (nat_of_ascii c) in
  if n <=? 57 then n - 48 else n - 87.

Fixpoint hex_digits (s : string) : list Z :=
  match s with
  | EmptyString => []
  | String c s' => hex_val c :: hex_digits s'
  end.

(** Big-endian 32-bit words, eight hexadecimal digits each. *)
Fixpoint hex_words (ds : list Z) : list Z :=
  match ds with
  | d7 :: d6 :: d5 :: d4 :: d3 :: d2 :: d1 :: d0 :: rest =>
      foldl (fun acc d => acc * 16 + d) 0 [d7; d6; d5; d4; d3; d2; d1; d0] :: hex_words rest
  | _ => []
  end.

(** Round constants (FIPS 180-4, 4.2.2). *)
Definition K : list Z :=
  Eval vm_compute in hex_words (hex_digits (foldr String.append EmptyString [
    "428a2f9871374491b5c0fbcfe9b5dba53956c25b59f111f1923f82a4ab1c5ed5"%string;
    "d807aa9812835b01243185be550c7dc372be5d7480deb1fe9bdc06a7c19bf174"%string;
    "e49b69c1efbe47860fc19dc6240ca1cc2de92c6f4a7484aa5cb0a9dc76f988da"%string;
    "983e5152a831c66db00327c8bf597fc7c6e00bf3d5a7914706ca635114292967"%string;
    "27b70a852e1b21384d2c6dfc53380d13650a7354766a0abb81c2c92e92722c85"%string;
    "a2bfe8a1a81a664bc24b8b70c76c51a3d192e819d6990624f40e3585106aa070"%string;
    "19a4c1161e376c082748774c34b0bcb5391c0cb34ed8aa4a5b9cca4f682e6ff3"%string;
    "748f82ee78a5636f84c878148cc7020890befffaa4506cebbef9a3f7c67178f2"%string])).

(** Initial hash value (FIPS 180-4, 5.3.3). *)
Definition H0 : list Z :=
  Eval vm_compute in hex_words (hex_digits "6a09e667bb67ae853c6ef372a54ff53a510e527f9b05688c1f83d9ab5be0cd19").

(** Padding: 0x80, zeros, and the 64-bit big-endian bit length. *)
Definition be_bytes (n : nat) (x : Z) : list Z :=
  map (fun i => Z.land (Z.shiftr x (8 * Z.of_nat (n - 1 - i))) 255) (seq 0 n).

Definition pad (msg : list Z) : list Z :=
  let len := Z.of_nat (length msg) in
  msg ++ [128] ++ repeat 0 (Z.to_nat ((55 - len) mod 64)) ++ be_bytes 8 (8 * len).

Fixpoint chunks (fuel : nat) (n : nat) (l : list Z) : list (list Z) :=
  match fuel with
  | O => []
  | S f => match l with [] => [] | _ => take n l :: chunks f n (drop n l) end
  end.

Definition be_word (b : list Z) : Z :=
  foldl (fun acc x => acc * 256 + x) 0 b.

(** Message schedule W[0..63]. *)
Fixpoint extend (fuel : nat) (w : list Z) : list Z :=
  match fuel with
  | O => w
  | S f =>
      let t := length w in
      let get i := default 0 (w !! i) in
      extend f (w ++ [add32 (add32 (ssig1 (get (t - 2)%nat)) (get (t - 7)%nat))
                            (add32 (ssig0 (get (t - 15)%nat)) (get (t - 16)%nat))])
  end.

Definition schedule (block : list Z) : list Z :=
  extend 48 (map be_word (chunks 16 4 block)).

Definition round (st : list Z) (kw : Z * Z) : list Z :=
  match st with
  | [a; b; c; d; e; f; g; h] =>
      let t1 := add32 (add32 (add32 h (bsig1 e)) (add32 (ch e f g) kw.1)) kw.2 in
      let t2 := add32 (bsig0 a) (maj a b c) in
      [add32 t1 t2; a; b; c; add32 d t1; e; f; g]
  | _ => st
  end.

Definition compress (hs : list Z) (block : list Z) : list Z :=
  zip_with add32 hs (foldl round hs (zip K (schedule block))).

Definition digest (msg : list Z) : list Z :=
  let p := pad msg in
  let hs := foldl compress H0 (chunks (length p) 64 p) in
  mbind (be_bytes 4) hs.

End Sha256.

(** Node encodes string arguments of [update] and of the HMAC key as UTF-8;
    a lone surrogate becomes U+FFFD. *)
Definition utf8_of_cp (cp : Z) : list Z :=
  if cp <? 0x80 then [cp]
  else if cp <? 0x800 then [Z.lor 0xC0 (Z.shiftr cp 6); Z.lor 0x80 (Z.land cp 63)]
  else if cp <? 0x10000 then
    [Z.lor 0xE0 (Z.shiftr cp 12); Z.lor 0x80 (Z.land (Z.shiftr cp 6) 63);
     Z.lor 0x80 (Z.land cp 63)]
  else
    [Z.lor 0xF0 (Z.shiftr cp 18); Z.lor 0x80 (Z.land (Z.shiftr cp 12) 63);
     Z.lor 0x80 (Z.land (Z.shiftr cp 6) 63); Z.lor 0x80 (Z.land cp 63)].

Fixpoint utf8_encode (s : jsstr) : list Z :=
  match s with
  | [] => []
  | hi :: rest =>
      if (0xD800 <=? hi) && (hi <=? 0xDBFF) then
        match rest with
        | lo :: rest' =>
            if (0xDC00 <=? lo) && (lo <=? 0xDFFF) then
              utf8_of_cp (0x10000 + (hi - 0xD800) * 1024 + (lo - 0xDC00)) ++ utf8_encode rest'
            else utf8_of_cp 0xFFFD ++ utf8_encode rest
        | [] => utf8_of_cp 0xFFFD
        end
      else if (0xDC00 <=? hi) && (hi <=? 0xDFFF) then utf8_of_cp 0xFFFD ++ utf8_encode rest
      else utf8_of_cp hi ++ utf8_encode rest
  end.

Definition hmac_sha256 (key msg : list Z) : list Z :=
  let k := if (64 <? length key)%nat then Sha256.digest key else key in
  let k := k ++ repeat 0 (64 - length k) in
  let inner := Sha256.digest (map (Z.lxor 0x36) k ++ msg) in
  Sha256.digest (map (Z.lxor 0x5c) k ++ inner).

Definition hex_digit (d : Z) : Z := if d <? 10 then 48 + d else 87 + d.

Definition to_hex (bytes : list Z) : jsstr :=
  mbind (fun b => [hex_digit (Z.shiftr b 4); hex_digit (Z.land b 15)]) bytes.

Definition hmac_sha256_hex (secret s : jsstr) : jsstr :=
  to_hex (hmac_sha256 (utf8_encode secret) (utf8_encode s)).

(* ================================================================== *)
(** ** src/core/signature.js *)

Module Signature.

(** [calculateSignature(data, secret)]: the keys sorted, then
    [sortedKeys.forEach((key, index) => { if (index > 0) base += "&";
    base += `${key}=${data[key]}` })]. *)
Fixpoint signature_base_loop (data : jsobj) (ks : list jsstr) (index : nat)
    (base : jsstr) : jsstr :=
  match ks with
  | [] => base
  | key :: ks' =>
      let base1 := if (0 <? index)%nat then base ++ js "&" else base in
      signature_base_loop data ks' (S index)
        (base1 ++ key ++ js "=" ++ to_js_string (obj_get data key))
  end.

Definition calculateSignature (data : jsobj) (secret : jsstr) : jsstr :=
  let sortedKeys := js_sort_strings (obj_keys data) in
  let signatureBase := signature_base_loop data sortedKeys 0 [] in
  hmac_sha256_hex secret signatureBase.

Definition is_empty_value (v : jsval) : bool :=
  match v with
  | JUndefined | JNull => true
  | JStr [] => true
  | _ => false
  end.

(** [Object.keys(payload).forEach(key => { if (...) delete payload[key]; })] *)
Definition strip_empty (payload : jsobj) : jsobj :=
  foldl (fun p key => if is_empty_value (obj_get p key) then obj_delete p key else p)
    payload (obj_keys payload).

(** [prepareSignedPayload(customParams, apiKey, apiSecret)]; [now] is the
    value of [new Date().getTime()]. *)
Definition payload_before_sign (now : Z) (customParams : jsobj) (apiKey : jsval) : jsobj :=
  let payload := customParams in
  let payload := if negb (truthy (obj_get payload (js "timestamp")))
                 then obj_set payload (js "timestamp") (JNum now) else payload in
  let payload := if negb (truthy (obj_get payload (js "apiKey")))
                 then obj_set payload (js "apiKey") apiKey else payload in
  strip_empty payload.

Definition prepareSignedPayload (now : Z) (customParams : jsobj) (apiKey : jsval)
    (apiSecret : jsstr) : jsobj :=
  let payload := payload_before_sign now customParams apiKey in
  obj_set payload (js "sign") (JStr (calculateSignature payload apiSecret)).

#[global] Instance jsval_eq_dec : EqDecision jsval.
Proof. solve_decision. Defined.

(** [verifySignature(payload, secret)] *)
Definition verifySignature (payload : jsobj) (secret : jsstr) : bool :=
  if negb (truthy (obj_get payload (js "sign"))) then false
  else
    let receivedSignature := obj_get payload (js "sign") in
    let payloadWithoutSignature := obj_delete payload (js "sign") in
    let calculatedSignature := calculateSignature payloadWithoutSignature secret in
    bool_decide (receivedSignature = JStr calculatedSignature).

(** The canonical string as the spec words it: the given key order,
    entries [k=v] joined by ["&"], no trailing separator. *)
Definition join_with (sep : jsstr) (parts : list jsstr) : jsstr :=
  match parts with
  | [] => []
  | p :: ps => p ++ mbind (fun q => sep ++ q) ps
  end.

Definition canonical_string (ks : list jsstr) (data : jsobj) : jsstr :=
  join_with (js "&") (map (fun k => k ++ js "=" ++ to_js_string (obj_get data k)) ks).

End Signature.

(* ================================================================== *)
(** ** JSON values (results of [JSON.parse]) *)

#[local] Set Warnings "-register-all".

(** Objects list their properties in enumeration order, keys distinct. *)
Inductive json :=
| JSNull
| JSBool (b : bool)
| JSNum (z : Z)
| JSStr (s : jsstr)
| JSArr (items : list json)
| JSObj (fields : list (jsstr * json)).

Fixpoint json_get (fields : list (jsstr * json)) (k : jsstr) : option json :=
  match fields with
  | [] => None
  | (k', v) :: fs => if bool_decide (k = k') then Some v else json_get fs k
  end.

(** [o[k] = v] on a JSON object (used by object spread with overrides). *)
Fixpoint json_set (fields : list (jsstr * json)) (k : jsstr) (v : json)
    : list (jsstr * json) :=
  match fields with
  | [] => [(k, v)]
  | (k', v') :: fs =>
      if bool_decide (k = k') then (k', v) :: fs else (k', v') :: json_set fs k v
  end.

(** Property read [v.k]; [None] is [undefined].  Arrays and strings carry
    no property named like the SDK's field names. *)
Definition member (v : option json) (k : jsstr) : option json :=
  match v with
  | Some (JSObj fields) => json_get fields k
  | _ => None
  end.

Definition json_truthy (v : json) : bool :=
  match v with
  | JSNull => false
  | JSBool b => b
  | JSNum z => negb (z =? 0)
  | JSStr s => negb (bool_decide (s = []))
  | JSArr _ | JSObj _ => true
  end.

Definition opt_truthy (v : option json) : bool :=
  match v with Some x => json_truthy x | None => false end.

(** [typeof v === 'object'] (for a truthy value: objects and arrays). *)
Definition is_object (v : option json) : bool :=
  match v with Some (JSObj _) | Some (JSArr _) | Some JSNull => true | _ => false end.

(** Result of JavaScript code that may throw. *)
Inductive exc (A : Type) :=
| Ok (a : A)
| Throw (msg : jsstr).
Arguments Ok {A} a.
Arguments Throw {A} msg.

(* ================================================================== *)
(** ** src/core/decryption.js *)

Section Decryption.

(** The library primitives the module calls, with the fixed key material.
    [jsencrypt_decrypt]: [jsEncrypt.decrypt(s)], [None] for [false]/[null]
    (JSEncrypt reports failure by its return value). *)
Variable jsencrypt_decrypt : jsstr -> option jsstr.
(** [Buffer.from(s, 'base64')] (lenient, never throws) and
    [buf.toString('base64')]; bytes are [Z]s in [0, 255]. *)
Variable base64_decode : jsstr -> list Z.
Variable base64_encode : list Z -> jsstr.
(** [decodeURIComponent] (throws [URIError] on malformed escapes). *)
Variable decodeURIComponent : jsstr -> exc jsstr.
(** [JSON.parse] (throws [SyntaxError]). *)
Variable json_parse : jsstr -> exc json.
(** [CryptoJS.AES.decrypt(s, key).toString(CryptoJS.enc.Utf8)] and the
    same on [{ ciphertext: CryptoJS.enc.Base64.parse(s) }]; both may throw
    on malformed UTF-8. *)
Variable aes_decrypt_utf8 : jsstr -> exc jsstr.
Variable aes_decrypt_ciphertext_utf8 : jsstr -> exc jsstr.

Definition chunkSize : nat := 128.

(** [for (let i = 0; i < rawData.length; i += chunkSize)
       chunks.push(rawData.slice(i, i + chunkSize))] *)
Fixpoint slice_loop (fuel : nat) (rawData : list Z) (i : nat) : list (list Z) :=
  match fuel with
  | O => []
  | S f =>
      if (i <? length rawData)%nat
      then take chunkSize (drop i rawData) :: slice_loop f rawData (i + chunkSize)
      else []
  end.

Definition split_blocks (rawData : list Z) : list (list Z) :=
  slice_loop (length rawData) rawData 0.

Definition rsa_chunks (encryptedData : jsstr) : list jsstr :=
  map base64_encode (split_blocks (base64_decode encryptedData)).

(** [for (let i = 0; i < chunks.length; i++) { ... throw ... push }] *)
Fixpoint decrypt_chunks (i : nat) (chunks : list jsstr) : exc (list jsstr) :=
  match chunks with
  | [] => Ok []
  | c :: cs =>
      match jsencrypt_decrypt c with
      | None => Throw (js "Chunk " ++ num_to_string (Z.of_nat (S i)) ++ js " decryption failed")
      | Some d =>
          match decrypt_chunks (S i) cs with
          | Ok ds => Ok (d :: ds)
          | Throw e => Throw e
          end
      end
  end.

(** The value of [decryptedResult] after the single-block attempt and, when
    it fails, the chunked attempt ([decryptedChunks.join('')]). *)
Definition rsa_decrypted_result (encryptedData : jsstr) : exc jsstr :=
  match jsencrypt_decrypt encryptedData with
  | Some r => Ok r
  | None =>
      match decrypt_chunks 0 (rsa_chunks encryptedData) with
      | Ok ds => Ok (mbind id ds)
      | Throw e => Throw e
      end
  end.

(** [s.replace(/\+/g, '%20')] *)
Definition replace_plus (s : jsstr) : jsstr :=
  mbind (fun c => if c =? 43 then js "%20" else [c]) s.

(** The body of the [try] block of [decryptRSAResponse]. *)
Definition decryptRSAResponse_body (encryptedData : jsstr) : exc json :=
  match rsa_decrypted_result encryptedData with
  | Throw e => Throw e
  | Ok decryptedResult =>
      if bool_decide (decryptedResult = [])
      then Throw (js "RSA decryption returned null or false")
      else match decodeURIComponent (replace_plus decryptedResult) with
           | Throw e => Throw e
           | Ok urlDecoded => json_parse urlDecoded
           end
  end.

(** [decryptRSAResponse(encryptedData)]: the [catch] returns [null]. *)
Definition decryptRSAResponse (encryptedData : jsstr) : json :=
  match decryptRSAResponse_body encryptedData with
  | Ok v => v
  | Throw _ => JSNull
  end.

(** [decryptAESString(encryptedData)]: [None] is [null]. *)
Definition decryptAESString (encryptedData : jsstr) : option jsstr :=
  let body :=
    match aes_decrypt_utf8 encryptedData with
    | Throw e => Throw e
    | Ok result =>
        if bool_decide (result = []) then aes_decrypt_ciphertext_utf8 encryptedData
        else Ok result
    end in
  match body with
  | Ok result => if bool_decide (result = []) then None else Some result
  | Throw _ => None
  end.

(** [processApiResponse(response)] for a response object. *)
Definition processApiResponse (response : list (jsstr * json)) : list (jsstr * json) :=
  match json_get response (js "data") with
  | Some (JSStr s) =>
      if bool_decide (s = []) then response
      else
        let rsaDecrypted := decryptRSAResponse s in
        if json_truthy rsaDecrypted then
          json_set (json_set (json_set response (js "data") rsaDecrypted)
                      (js "_originalEncryptedData") (JSStr s))
            (js "_decryptionMethod") (JSStr (js "RSA"))
        else
          match decryptAESString s with
          | Some aesDecrypted =>
              let parsed := match json_parse aesDecrypted with
                            | Ok v => v
                            | Throw _ => JSStr aesDecrypted
                            end in
              json_set (json_set (json_set response (js "data") parsed)
                          (js "_originalEncryptedData") (JSStr s))
                (js "_decryptionMethod") (JSStr (js "AES"))
          | None => response
          end
  | _ => response
  end.

End Decryption.

(* ================================================================== *)
(** ** [AuthenticationManager._extractTokenFromResponse] *)

Module TokenSearch.

(** [for (const key in obj) { const result = f(obj[key]); if (result) return result; }
     return null;] *)
Fixpoint first_truthy {A} (f : A -> option json) (l : list A) : option json :=
  match l with
  | [] => None
  | x :: l' => if opt_truthy (f x) then f x else first_truthy f l'
  end.

(** [findToken(obj)]: [for ... in] over an array visits its indices. *)
Fixpoint findToken (obj : json) : option json :=
  match obj with
  | JSObj fields =>
      if opt_truthy (json_get fields (js "token")) then json_get fields (js "token")
      else first_truthy (fun kv => findToken kv.2) fields
  | JSArr items => first_truthy findToken items
  | _ => None
  end.

Definition _extractTokenFromResponse (response : json) : option json :=
  let data := member (Some response) (js "data") in
  if opt_truthy data && is_object data && opt_truthy (member data (js "token"))
  then member data (js "token")
  else if opt_truthy data && opt_truthy (member data (js "data"))
          && opt_truthy (member (member data (js "data")) (js "token"))
  then member (member data (js "data")) (js "token")
  else match data with
       | Some d => if json_truthy d then findToken d else None
       | None => None
       end.

End TokenSearch.

(* ================================================================== *)
(** ** src/core/CoinPlexClient.js: [request], [getStats], [resetStats] *)

Module Client.

Record stats := mkStats {
  requests : nat;
  successful : nat;
  failed : nat;
  encrypted : nat
}.

Definition zero_stats : stats := mkStats 0 0 0 0.

(** What [_makeHttpRequest] resolves with. *)
Record response := mkResponse {
  statusCode : Z;
  decryptionMethod : option jsstr;   (* [_decryptionMethod], [None] = undefined *)
  body : json
}.

(** Where an in-flight [request] call is suspended. *)
Inductive phase :=
| AwaitHttp                 (* [await this._makeHttpRequest(...)] *)
| AwaitDelay (ms : nat).    (* [await this._delay(1000 * attempts)] *)

Record call := mkCall {
  call_id : nat;
  attempts : nat;
  maxAttempts : nat;
  at_phase : phase
}.

Record client := mkClient {
  client_stats : stats;
  autoRetry : bool;
  calls : list call
}.

(** Events of the event loop that drive the client. *)
Inductive event :=
| EvCall (id : nat) (authenticated : bool)   (* [client.request(...)]; [isAuthenticated()] *)
| EvResolve (id : nat) (r : response)        (* the pending HTTP promise resolves *)
| EvReject (id : nat) (err : jsstr)          (* the pending HTTP promise rejects *)
| EvTimer (id : nat)                         (* the retry delay elapses *)
| EvReset.                                   (* [client.resetStats()] *)

(** Observable effects. *)
Inductive output :=
| OAttempt (id : nat) (n : nat)      (* [_makeHttpRequest] invoked for the [n]-th time *)
| OSleep (id : nat) (ms : nat)       (* [_delay(ms)] invoked *)
| OReturn (id : nat) (r : response)  (* [request] resolves *)
| OThrow (id : nat) (err : jsstr).   (* [request] rejects *)

Definition set_stats (c : client) (s : stats) : client :=
  mkClient s (autoRetry c) (calls c).
Definition set_calls (c : client) (l : list call) : client :=
  mkClient (client_stats c) (autoRetry c) l.

Definition incr_requests (s : stats) : stats :=
  mkStats (S (requests s)) (successful s) (failed s) (encrypted s).
Definition incr_successful (s : stats) : stats :=
  mkStats (requests s) (S (successful s)) (failed s) (encrypted s).
Definition incr_failed (s : stats) : stats :=
  mkStats (requests s) (successful s) (S (failed s)) (encrypted s).
Definition incr_encrypted (s : stats) : stats :=
  mkStats (requests s) (successful s) (failed s) (S (encrypted s)).

Fixpoint find_call (l : list call) (id : nat) : option call :=
  match l with
  | [] => None
  | x :: l' => if (call_id x =? id)%nat then Some x else find_call l' id
  end.

Definition remove_call (l : list call) (id : nat) : list call :=
  filter (fun x => negb (call_id x =? id)%nat) l.

Definition replace_call (l : list call) (x : call) : list call :=
  map (fun y => if (call_id y =? call_id x)%nat then x else y) l.

Definition not_authenticated_msg : jsstr :=
  js "Client not authenticated. Call authenticate() first.".

(** One turn of the event loop. *)
Definition step (c : client) (ev : event) : option (client * list output) :=
  match ev with
  | EvCall id authenticated =>
      match find_call (calls c) id with
      | Some _ => None
      | None =>
          if negb authenticated then Some (c, [OThrow id not_authenticated_msg])
          else
            let maxA := if autoRetry c then 3%nat else 1%nat in
            (* [while (attempts < maxAttempts) { this.stats.requests++; await ... }] *)
            if (0 <? maxA)%nat then
              Some (mkClient (incr_requests (client_stats c)) (autoRetry c)
                      (calls c ++ [mkCall id 0 maxA AwaitHttp]), [OAttempt id 1])
            else None
      end
  | EvResolve id r =>
      match find_call (calls c) id with
      | Some (mkCall _ _ _ AwaitHttp) =>
          let s := client_stats c in
          let s := if (200 <=? statusCode r) && (statusCode r <? 300)
                   then incr_successful s else incr_failed s in
          let s := match decryptionMethod r with
                   | Some (_ :: _) => incr_encrypted s
                   | _ => s
                   end in
          Some (mkClient s (autoRetry c) (remove_call (calls c) id), [OReturn id r])
      | _ => None
      end
  | EvReject id err =>
      match find_call (calls c) id with
      | Some (mkCall _ a maxA AwaitHttp) =>
          let a' := S a in
          let s := incr_failed (client_stats c) in
          if (maxA <=? a')%nat then
            Some (mkClient s (autoRetry c) (remove_call (calls c) id), [OThrow id err])
          else
            Some (mkClient s (autoRetry c)
                    (replace_call (calls c) (mkCall id a' maxA (AwaitDelay (1000 * a')))),
                  [OSleep id (1000 * a')])
      | _ => None
      end
  | EvTimer id =>
      match find_call (calls c) id with
      | Some (mkCall _ a maxA (AwaitDelay _)) =>
          if (a <? maxA)%nat then
            Some (mkClient (incr_requests (client_stats c)) (autoRetry c)
                    (replace_call (calls c) (mkCall id a maxA AwaitHttp)),
                  [OAttempt id (S a)])
          else
            (* the loop exits and [request] resolves with [undefined] *)
            None
      | _ => None
      end
  | EvReset => Some (set_stats c zero_stats, [])
  end.

Fixpoint run (c : client) (evs : list event) : option (client * list output) :=
  match evs with
  | [] => Some (c, [])
  | ev :: evs' =>
      match step c ev with
      | None => None
      | Some (c', o) =>
          match run c' evs' with
          | None => None
          | Some (c'', o') => Some (c'', o ++ o')
          end
      end
  end.

(** A fresh client, as the constructor leaves it. *)
Definition init (autoRetry : bool) : client := mkClient zero_stats autoRetry [].

(** Callers that never overlap: [request] and [resetStats] are only
    invoked while no [request] call is in flight. *)
Definition step_serial (c : client) (ev : event) : option (client * list output) :=
  match ev with
  | EvCall _ _ | EvReset => if bool_decide (calls c = []) then step c ev else None
  | _ => step c ev
  end.

Fixpoint run_serial (c : client) (evs : list event) : option (client * list output) :=
  match evs with
  | [] => Some (c, [])
  | ev :: evs' =>
      match step_serial c ev with
      | None => None
      | Some (c', o) =>
          match run_serial c' evs' with
          | None => None
          | Some (c'', o') => Some (c'', o ++ o')
          end
      end
  end.

End Client.

(* ================================================================== *)
(** ** Object identity: the read accessors [getStats] and [getResults] *)

Module Heap.

Abbreviation loc := positive.

Inductive hval :=
| HUndef
| HBool (b : bool)
| HNum (z : Z)
| HStr (s : jsstr)
| HRef (l : loc).

Inductive hobj :=
| HObject (props : list (jsstr * hval))
| HArray (items : list hval).

Abbreviation heap := (gmap loc hobj).

(** Allocation of a fresh object. *)
Definition alloc (h : heap) (o : hobj) : heap * loc :=
  let l := fresh (dom h) in (<[l := o]> h, l).

(** [getStats() { return { ...this.stats }; }]: [this.stats] is the
    object at [stats_ref]. *)
Definition getStats (h : heap) (stats_ref : loc) : option (heap * loc) :=
  match h !! stats_ref with
  | Some (HObject props) => Some (alloc h (HObject props))
  | _ => None
  end.

(** [getResults: () => [...results]]: [results] is the array at
    [results_ref]; its elements are references to result objects. *)
Definition getResults (h : heap) (results_ref : loc) : option (heap * loc) :=
  match h !! results_ref with
  | Some (HArray items) => Some (alloc h (HArray items))
  | _ => None
  end.

(** Any in-place mutation of the object at [l] by the caller (setting,
    deleting or adding properties, [push], [pop], [splice], index writes). *)
Definition mutate (h : heap) (l : loc) (f : hobj -> hobj) : heap :=
  match h !! l with
  | Some o => <[l := f o]> h
  | None => h
  end.

(** A sequence of such mutations of the object at [l]. *)
Definition mutate_all (h : heap) (l : loc) (fs : list (hobj -> hobj)) : heap :=
  foldl (fun h f => mutate h l f) h fs.

End Heap.

(* ================================================================== *)
(** ** src/api/quantify.js: [scheduleExecutions] and [getExecutionStats] *)

Module Quantify.

Inductive payload :=
| RResult (v : json)     (* [result] *)
| RError (msg : jsstr).  (* [error: error.message] *)

Record execution_result := mkResult {
  iteration : nat;
  timestamp : Z;          (* milliseconds of [new Date().toISOString()] *)
  success : bool;
  outcome : payload
}.

(** What the loop observes from the outside world. *)
Record env := mkEnv {
  execute : nat -> exc json;                         (* [await this.execute(...)] at iteration i *)
  clock : nat -> Z;                                  (* [new Date()] at iteration i *)
  onSuccess : option (execution_result -> exc unit);
  onError : option (execution_result -> exc unit);
  stop_during_execute : nat -> bool;                 (* [stop()] called while iteration i runs *)
  stop_during_delay : nat -> bool                    (* [stop()] called during the wait after i *)
}.

Record sched_state := mkSched {
  results : list execution_result;
  currentIteration : nat;
  isRunning : bool;
  delays : list Z                                    (* arguments of [this._delay] *)
}.

Definition push (st : sched_state) (r : execution_result) : sched_state :=
  mkSched (results st ++ [r]) (currentIteration st) (isRunning st) (delays st).

(** Invoke an optional callback; [Some e] is an exception it throws. *)
Definition invoke (cb : option (execution_result -> exc unit)) (r : execution_result)
    : option jsstr :=
  match cb with
  | Some f => match f r with Ok _ => None | Throw e => Some e end
  | None => None
  end.

(** The inner [catch (error)] block. Returns the state and the exception
    escaping to the outer [try], if any. *)
Definition on_failure (e : env) (i : nat) (msg : jsstr) (st : sched_state)
    : sched_state * option jsstr :=
  let r := mkResult i (clock e i) false (RError msg) in
  let st := push st r in
  (st, invoke (onError e) r).

(** One pass of the [for] body for iteration [i]. *)
Definition iteration_body (e : env) (iterations : nat) (intervalMinutes : Z) (i : nat)
    (st : sched_state) : sched_state * option jsstr :=
  let st := mkSched (results st) i (isRunning st) (delays st) in
  let '(st, exn) :=
    match execute e i with
    | Ok result =>
        let r := mkResult i (clock e i) true (RResult result) in
        let st := push st r in
        match invoke (onSuccess e) r with
        | None => (st, None)
        | Some err => on_failure e i err st
        end
    | Throw err => on_failure e i err st
    end in
  match exn with
  | Some err => (st, Some err)
  | None =>
      let running := isRunning st && negb (stop_during_execute e i) in
      let st := mkSched (results st) (currentIteration st) running (delays st) in
      if (i <? iterations)%nat && running then
        (mkSched (results st) (currentIteration st)
           (running && negb (stop_during_delay e i))
           (delays st ++ [intervalMinutes * 60 * 1000]), None)
      else (st, None)
  end.

(** [for (let i = 1; i <= iterations && isRunning; i++) { ... }] *)
Fixpoint loop (e : env) (iterations : nat) (intervalMinutes : Z) (fuel i : nat)
    (st : sched_state) : sched_state * option jsstr :=
  match fuel with
  | O => (st, None)
  | S f =>
      if (i <=? iterations)%nat && isRunning st then
        match iteration_body e iterations intervalMinutes i st with
        | (st', Some err) => (st', Some err)
        | (st', None) => loop e iterations intervalMinutes f (S i) st'
        end
      else (st, None)
  end.

(** The detached execution loop of [scheduleExecutions]: the state the
    scheduler handle observes once the loop has ended. *)
Definition scheduleExecutions (e : env) (iterations : nat) (intervalMinutes : Z)
    : sched_state :=
  let st0 := mkSched [] 0 true [] in
  match loop e iterations intervalMinutes iterations 1 st0 with
  | (st, None) => mkSched (results st) 0 false (delays st)
  | (st, Some _) => mkSched (results st) (currentIteration st) false (delays st)
  end.

(** [Math.round] *)
Definition js_round (q : Q) : Z := Qfloor (q + (1 # 2))%Q.

Record execution_stats := mkStats {
  total : Z;
  successful : Z;
  failed : Z;
  successRate : Q;
  averageInterval : Q;
  firstExecution : option Z;   (* [None]: property absent *)
  lastExecution : option Z
}.

Fixpoint intervals (ts : list Z) : list Z :=
  match ts with
  | a :: (b :: _) as rest => (b - a) :: intervals rest
  | _ => []
  end.

(** [getExecutionStats(results)]; [None] is a missing argument
    ([undefined]/[null]). Numbers are computed exactly. *)
Definition getExecutionStats (results : option (list execution_result)) : execution_stats :=
  match results with
  | None | Some [] => mkStats 0 0 0 0%Q 0%Q None None
  | Some rs =>
      let n := Z.of_nat (length rs) in
      let succ := Z.of_nat (length (filter (fun r => success r = true) rs)) in
      let fail := n - succ in
      let rate := ((inject_Z succ / inject_Z n) * 100)%Q in
      let avg :=
        if (1 <? length rs)%nat then
          let iv := intervals (map timestamp rs) in
          (inject_Z (foldl Z.add 0%Z iv) / inject_Z (Z.of_nat (length iv)))%Q
        else 0%Q in
      mkStats n succ fail
        (inject_Z (js_round (rate * 100)) / 100)%Q
        (inject_Z (js_round (avg / 1000)%Q))
        (option_map timestamp (head rs))
        (option_map timestamp (last rs))
  end.

End Quantify.

(* ================================================================== *)
(** ** Objects with arbitrary property values *)

(** An object's own properties in enumeration order; the value [None] is a
    property holding [undefined]. *)
Abbreviation props := (list (jsstr * option json)).

Fixpoint props_lookup (o : props) (k : jsstr) : option (option json) :=
  match o with
  | [] => None
  | (k', v) :: o' => if bool_decide (k = k') then Some v else props_lookup o' k
  end.

(** [o[k]]: [undefined] when absent. *)
Definition props_get (o : props) (k : jsstr) : option json :=
  match props_lookup o k with Some v => v | None => None end.

(** [o[k] = v]: overwrite in place, or append a new property. *)
Fixpoint props_set (o : props) (k : jsstr) (v : option json) : props :=
  match o with
  | [] => [(k, v)]
  | (k', v') :: o' =>
      if bool_decide (k = k') then (k', v) :: o' else (k', v') :: props_set o' k v
  end.

(** [...src] inside an object literal being built in [acc]: every own
    property of [src], [undefined] values included, in order. *)
Definition props_assign (acc src : props) : props :=
  foldl (fun o kv => props_set o kv.1 kv.2) acc src.

(* ================================================================== *)
(** ** src/core/CoinPlexClient.js: configuration and HTTP plumbing *)

Module ClientConfig.

Definition required_fields : list jsstr := [js "apiKey"; js "apiSecret"; js "credentials"].
Definition credential_fields : list jsstr := [js "prefix"; js "account"; js "code"].

(** [for (const field of fields) { if (!get(field)) throw ...; }]: the
    first field whose value is falsy. *)
Fixpoint first_missing (get : jsstr -> option json) (fields : list jsstr) : option jsstr :=
  match fields with
  | [] => None
  | f :: fs => if opt_truthy (get f) then first_missing get fs else Some f
  end.

(** [_validateConfig(config)]; [None] is a missing ([undefined]/[null])
    configuration. *)
Definition _validateConfig (config : option props) : exc unit :=
  match config with
  | None => Throw (js "Configuration object is required")
  | Some c =>
      match first_missing (props_get c) required_fields with
      | Some field => Throw (js "Missing required configuration: " ++ field)
      | None =>
          match first_missing (fun f => member (props_get c (js "credentials")) f)
                  credential_fields with
          | Some field => Throw (js "Missing required credential: " ++ field)
          | None => Ok tt
          end
      end
  end.

(** [this.config = { baseUrl: 'api.coinplex.online', autoRetry: true,
    timeout: 30000, ...config }] *)
Definition client_config (config : props) : props :=
  props_assign [(js "baseUrl", Some (JSStr (js "api.coinplex.online")));
                (js "autoRetry", Some (JSBool true));
                (js "timeout", Some (JSNum 30000))] config.

(** [const maxAttempts = this.config.autoRetry ? 3 : 1;] *)
Definition maxAttempts (cfg : props) : nat :=
  if opt_truthy (props_get cfg (js "autoRetry")) then 3%nat else 1%nat.

(** The fixed headers of [_makeHttpRequest]. *)
Definition default_headers : props :=
  [(js "Content-Type", Some (JSStr (js "application/json")));
   (js "Accept", Some (JSStr (js "*/*")));
   (js "Accept-Language", Some (JSStr (js "en-US,en;q=0.9")));
   (js "Origin", Some (JSStr (js "https://coinplex.online")));
   (js "Referer", Some (JSStr (js "https://coinplex.online/")));
   (js "Lang", Some (JSStr (js "en_US")));
   (js "System", Some (JSStr (js "android")));
   (js "User-Agent", Some (JSStr (js "Mozilla/5.0 (compatible; CoinPlexSDK/1.0)")));
   (js "DNT", Some (JSStr (js "1")));
   (js "Priority", Some (JSStr (js "u=1, i")));
   (js "Sec-Fetch-Dest", Some (JSStr (js "empty")));
   (js "Sec-Fetch-Mode", Some (JSStr (js "cors")));
   (js "Sec-Fetch-Site", Some (JSStr (js "same-site")))].

(** [headers: { ...defaults, ...options.headers }], then
    [if (token) requestOptions.headers['Token'] = token;]; [token] is
    [this.getToken()], [None] for [null]. *)
Definition request_headers (options_headers : option props) (token : option jsstr) : props :=
  let headers := props_assign default_headers
                   (match options_headers with Some h => h | None => [] end) in
  match token with
  | Some t => if bool_decide (t = []) then headers
              else props_set headers (js "Token") (Some (JSStr t))
  | None => headers
  end.

End ClientConfig.

Section HttpEnd.

Variable jsencrypt_decrypt : jsstr -> option jsstr.
Variable base64_decode : jsstr -> list Z.
Variable base64_encode : list Z -> jsstr.
Variable decodeURIComponent : jsstr -> exc jsstr.
Variable json_parse : jsstr -> exc json.
Variable aes_decrypt_utf8 : jsstr -> exc jsstr.
Variable aes_decrypt_ciphertext_utf8 : jsstr -> exc jsstr.

(** [processApiResponse(responseData)] on any parsed JSON value: reading
    [response.data] of [null] throws a [TypeError]; other non-objects
    have no [data] property and are returned as they are. *)
Definition processApiResponse_value (v : json) : exc json :=
  match v with
  | JSNull => Throw (js "Cannot read properties of null (reading 'data')")
  | JSObj fields =>
      Ok (JSObj (processApiResponse jsencrypt_decrypt base64_decode base64_encode
                   decodeURIComponent json_parse aes_decrypt_utf8
                   aes_decrypt_ciphertext_utf8 fields))
  | _ => Ok v
  end.

(** The [res.on('end', ...)] handler of [_makeHttpRequest]: the object
    the request promise resolves with, for status [statusCode], headers
    [resHeaders] and the received text [data]. *)
Definition on_end (statusCode : Z) (resHeaders : option json) (data : jsstr) : props :=
  let failed e :=
    [(js "statusCode", Some (JSNum statusCode)); (js "headers", resHeaders);
     (js "data", Some (JSStr data)); (js "error", Some (JSStr e))] in
  match json_parse data with
  | Throw e => failed e
  | Ok responseData =>
      match processApiResponse_value responseData with
      | Throw e => failed e
      | Ok decryptedResponse =>
          [(js "statusCode", Some (JSNum statusCode)); (js "headers", resHeaders);
           (js "data", member (Some decryptedResponse) (js "data"));
           (js "_originalData", Some responseData);
           (js "_decryptionMethod", member (Some decryptedResponse) (js "_decryptionMethod"))]
      end
  end.

End HttpEnd.

(* ================================================================== *)
(** ** src/api/quantify.js: [executeWithRetry] and [getStatus] *)

Section QuantifyRetry.

(** [v > 0] for a string and for an array (both converted by [ToNumber]
    of their primitive value). *)
Variable string_gt0 : jsstr -> bool.
Variable array_gt0 : list json -> bool.

(** [v > 0] for a property value; [None] is [undefined] ([NaN]). *)
Definition gt0 (v : option json) : bool :=
  match v with
  | None => false
  | Some JSNull => false
  | Some (JSBool b) => b
  | Some (JSNum z) => 0 <? z
  | Some (JSStr s) => string_gt0 s
  | Some (JSArr items) => array_gt0 items
  | Some (JSObj _) => false
  end.

(** Own enumerable properties copied by [...v] in an object literal. *)
Definition spread_json (v : option json) : list (jsstr * json) :=
  match v with
  | Some (JSObj fields) => fields
  | Some (JSArr items) => imap (fun i x => (num_to_string (Z.of_nat i), x)) items
  | Some (JSStr s) => imap (fun i c => (num_to_string (Z.of_nat i), JSStr [c])) s
  | _ => []
  end.

(** The object [executeWithRetry] returns for [result] at [attempt]. *)
Definition retry_result (result : option json) (attempt : nat) : json :=
  let base := json_set (json_set (spread_json result) (js "attempt") (JSNum (Z.of_nat attempt)))
                (js "success") (JSBool true) in
  if opt_truthy result &&
     (opt_truthy (member result (js "hasTip")) || gt0 (member result (js "expectedCompletionTime")))
  then JSObj base
  else JSObj (json_set base (js "message") (JSStr (js "No tips available at this time"))).

Inductive retry_event :=
| RAttempt (attempt : nat)   (* [this.execute(...)] for this attempt *)
| RSleep (ms : Z).           (* [this._delay(ms)] *)

Variable execute_at : nat -> exc (option json).   (* [await this.execute(...)] at an attempt *)
Variable maxRetries : Z.
Variable retryDelay : Z.

(** [`Quantify execution failed after ${maxRetries} attempts: ${lastError?.message}`] *)
Definition retry_failure (lastError : option jsstr) : jsstr :=
  js "Quantify execution failed after " ++ num_to_string maxRetries ++ js " attempts: " ++
  match lastError with Some m => m | None => js "undefined" end.

(** [for (let attempt = 1; attempt <= maxRetries; attempt++) { ... }] *)
Fixpoint retry_loop (fuel attempt : nat) (lastError : option jsstr)
    : list retry_event * exc json :=
  match fuel with
  | O => ([], Throw (retry_failure lastError))
  | S f =>
      if Z.of_nat attempt <=? maxRetries then
        match execute_at attempt with
        | Ok result => ([RAttempt attempt], Ok (retry_result result attempt))
        | Throw m =>
            let wait := if Z.of_nat attempt <? maxRetries
                        then [RSleep (retryDelay * Z.of_nat attempt)] else [] in
            let '(tr, out) := retry_loop f (S attempt) (Some m) in
            (RAttempt attempt :: wait ++ tr, out)
        end
      else ([], Throw (retry_failure lastError))
  end.

(** [executeWithRetry(maxRetries, retryDelay)] *)
Definition executeWithRetry : list retry_event * exc json :=
  retry_loop (Z.to_nat maxRetries) 1 None.

End QuantifyRetry.

(** [getStatus()]: [outcome] is the outcome of [await this.execute(...)]
    ([None] for an [undefined] result), [now] the ISO time string. *)
Definition getStatus (outcome : exc (option json)) (now : jsstr) : list (jsstr * json) :=
  let failed msg :=
    [(js "available", JSBool false); (js "error", JSStr msg);
     (js "lastChecked", JSStr now); (js "status", JSStr (js "error"))] in
  match outcome with
  | Throw msg => failed msg
  | Ok None => failed (js "Cannot read properties of undefined (reading 'hasTip')")
  | Ok (Some JSNull) => failed (js "Cannot read properties of null (reading 'hasTip')")
  | Ok (Some result) =>
      let hasTip := member (Some result) (js "hasTip") in
      let ect := member (Some result) (js "expectedCompletionTime") in
      [(js "available", JSBool true);
       (js "hasTips", match hasTip with Some v => if json_truthy v then v else JSBool false
                                       | None => JSBool false end);
       (js "expectedCompletionTime",
          match ect with Some v => if json_truthy v then v else JSNum 0 | None => JSNum 0 end);
       (js "lastChecked", JSStr now);
       (js "status", JSStr (if opt_truthy hasTip then js "tips_available" else js "no_tips"))]
  end.

(* ================================================================== *)
(** * Specification-side definitions and test inputs *)

Definition params_ba : jsobj := [(js "b", JStr (js "2")); (js "a", JStr (js "1"))].
Definition params_ab : jsobj := [(js "a", JStr (js "1")); (js "b", JStr (js "2"))].

Definition login_fields : jsobj :=
  [(js "accountType", JNum 0); (js "account", JStr (js "user")); (js "code", JStr (js "1234"))].

(** Toy primitives for witnesses: base64 is the identity on code units, and
    the RSA primitive accepts inputs of at most 128 units. *)
Definition toy_rsa (c : jsstr) : option jsstr :=
  if (length c <=? 128)%nat then Some c else None.
Definition toy_parse (s : jsstr) : exc json := Ok (JSStr s).

Definition undecryptable_envelope : list (jsstr * json) :=
  [(js "code", JSNum 200); (js "data", JSStr (js "bm90LWNpcGhlcnRleHQ="))].

(** A truthy value of a [token] property occurs in [v]: directly, under
    an object property, or under an array element. *)
Inductive token_reachable : json -> json -> Prop :=
| tr_here fields t :
    json_get fields (js "token") = Some t -> json_truthy t = true ->
    token_reachable (JSObj fields) t
| tr_field fields k x t :
    (k, x) ∈ fields -> token_reachable x t -> token_reachable (JSObj fields) t
| tr_elem items x t :
    x ∈ items -> token_reachable x t -> token_reachable (JSArr items) t.

(** The [token] values of [v] in depth-first preorder: a node's own
    [token] property first, then those below its properties (or array
    elements) in order. *)
Fixpoint preorder_tokens (v : json) : list json :=
  match v with
  | JSObj fields =>
      option_list (json_get fields (js "token"))
      ++ flat_map (fun kv => preorder_tokens kv.2) fields
  | JSArr items => flat_map preorder_tokens items
  | _ => []
  end.

(** The order in which the token search is meant to look at candidates
    in [data]: [data.token] (for an object), then [data.data.token], then
    the depth-first search.  The first truthy candidate is the token. *)
Definition token_check_order (d : json) : list json :=
  (if is_object (Some d) then option_list (member (Some d) (js "token")) else [])
  ++ option_list (member (member (Some d) (js "data")) (js "token"))
  ++ preorder_tokens d.

(** Two tokens: one on [data] itself and one below a sibling property. *)
Definition two_token_response : json :=
  JSObj [(js "data", JSObj [(js "token", JSStr (js "a"));
                            (js "x", JSObj [(js "token", JSStr (js "b"))])])].

(** A token three objects deep, next to sibling keys. *)
Definition login_response : json :=
  JSObj [(js "code", JSNum 200);
         (js "data", JSObj [(js "user", JSObj [(js "id", JSNum 7);
                                               (js "session", JSObj [(js "expires", JSNum 86400);
                                                                     (js "token", JSStr (js "jwt"))])]);
                            (js "lang", JSStr (js "en_US"))])].

Module ClientSpec.
Import Client.

(** The spec's retry schedule for [n] attempts that all fail at the
    transport level, the last with [e]: attempts [1..n], a wait of
    [1000 * k] ms after the failed attempt [k < n], then the error. *)
Definition retry_trace (id n : nat) (e : jsstr) : list output :=
  mbind (fun k => OAttempt id k :: (if (k <? n)%nat then [OSleep id (1000 * k)] else []))
        (seq 1 n)
  ++ [OThrow id e].

(** The transport rejects every attempt: [es] for all but the last,
    [e] for the last. *)
Definition fail_events (id : nat) (es : list jsstr) (e : jsstr) : list event :=
  mbind (fun x => [EvReject id x; EvTimer id]) es ++ [EvReject id e].

(** The counters between and during [request] calls that do not overlap:
    no call in flight, a call awaiting its HTTP attempt (already counted
    in [requests]), or a call waiting before its next attempt. *)
Definition serial_inv (c : client) : Prop :=
  let s := client_stats c in
  match calls c with
  | [] => requests s = (successful s + failed s)%nat
  | [x] =>
      match at_phase x with
      | AwaitHttp => requests s = S (successful s + failed s)
      | AwaitDelay _ => requests s = (successful s + failed s)%nat
      end
  | _ => False
  end.

Definition stats_le (s1 s2 : stats) : Prop :=
  (requests s1 <= requests s2 /\ successful s1 <= successful s2 /\
   failed s1 <= failed s2 /\ encrypted s1 <= encrypted s2)%nat.

Definition r200 : response := mkResponse 200 None JSNull.

Fixpoint retry_tail (id k : nat) (es : list jsstr) (e : jsstr) : list output :=
  match es with
  | [] => [OThrow id e]
  | _ :: es' => OSleep id (1000 * k) :: OAttempt id (S k) :: retry_tail id (S k) es' e
  end.

End ClientSpec.

Module HeapSpec.
Import Heap.

Definition stats_heap : heap :=
  {[ 1%positive := HObject [(js "requests", HNum 2); (js "successful", HNum 1);
                           (js "failed", HNum 1); (js "encrypted", HNum 0)] ]}.

End HeapSpec.

Module QuantifySpec.
Import Quantify.

Definition exc_ok {A} (x : exc A) : bool :=
  match x with Ok _ => true | Throw _ => false end.

(** The result the spec expects for iteration [i]: a success carrying the
    value of the remote call, or an error carrying its message. *)
Definition result_of (e : env) (i : nat) : execution_result :=
  match execute e i with
  | Ok v => mkResult i (clock e i) true (RResult v)
  | Throw msg => mkResult i (clock e i) false (RError msg)
  end.

(** The spec's scenario: three iterations, no wait, the remote call
    fails on the second. *)
Definition fails_on_second : env :=
  mkEnv (fun i => if (i =? 2)%nat then Throw (js "Request failed: ECONNRESET") else Ok JSNull)
        (fun i => Z.of_nat i * 1000)%Z None None (fun _ => false) (fun _ => false).

(** An [onSuccess] callback that throws. *)
Definition success_callback_throws : env :=
  mkEnv (fun _ => Ok JSNull) (fun i => Z.of_nat i)
        (Some (fun _ => Throw (js "callback failed"))) None (fun _ => false) (fun _ => false).

(** An [onError] callback that throws, with the remote call failing on
    the first of three iterations. *)
Definition error_callback_throws : env :=
  mkEnv (fun i => if (i =? 1)%nat then Throw (js "Request failed: ECONNRESET") else Ok JSNull)
        (fun i => Z.of_nat i) None (Some (fun _ => Throw (js "callback failed")))
        (fun _ => false) (fun _ => false).

End QuantifySpec.

Module QuantifyMoreSpec.
Import Quantify QuantifySpec.

(** The message of a thrown outcome. *)
Definition throw_msg {A} (x : exc A) : option jsstr :=
  match x with Throw m => Some m | Ok _ => None end.


(** Attempts [1..maxRetries], all failed; no wait after the last one. *)
Definition all_failed_trace (maxRetries retryDelay : Z) : list retry_event :=
  flat_map (fun j => RAttempt j :: (if Z.of_nat j <? maxRetries
                                    then [RSleep (retryDelay * Z.of_nat j)] else []))
    (seq 1 (Z.to_nat maxRetries)).

(** A remote call failing twice, then answering with a tip. *)
Definition flaky_execute (j : nat) : exc (option json) :=
  if (j <? 3)%nat then Throw (js "Request failed: ECONNRESET")
  else Ok (Some (JSObj [(js "hasTip", JSBool true); (js "attempt", JSNum 0)])).

(** A schedule whose [stop()] is called during the second iteration. *)
Definition stopped_on_second : env :=
  mkEnv (fun _ => Ok JSNull) (fun i => Z.of_nat i * 1000) None None
        (fun i => (i =? 2)%nat) (fun _ => false).

End QuantifyMoreSpec.

Module ClientMoreSpec.
Import Client.

(** A call whose HTTP attempt is in flight. *)
Definition in_flight (x : call) : bool :=
  match at_phase x with AwaitHttp => true | AwaitDelay _ => false end.

Definition count_http (l : list call) : nat :=
  length (filter (fun x => in_flight x = true) l).

Definition is_reset (ev : event) : bool :=
  match ev with EvReset => true | _ => false end.

(** The counters balance once the in-flight attempts are counted. *)
Definition counters_inv (c : client) : Prop :=
  NoDup (map call_id (calls c)) /\
  requests (client_stats c)
    = (successful (client_stats c) + failed (client_stats c) + count_http (calls c))%nat /\
  (encrypted (client_stats c) <= successful (client_stats c) + failed (client_stats c))%nat.

End ClientMoreSpec.

Module HttpSpec.

(** [JSON.parse] for witnesses: the text ["body"] is an envelope with
    the string ["abc"] as [data]; any other text parses to itself as a
    string. *)
Definition envelope_parse (t : jsstr) : exc json :=
  if bool_decide (t = js "body")
  then Ok (JSObj [(js "code", JSNum 200); (js "data", JSStr (js "abc"))])
  else Ok (JSStr t).

(** [JSON.parse] that rejects everything. *)
Definition parse_fails (t : jsstr) : exc json := Throw (js "Unexpected token").

End HttpSpec.

(* ================================================================== *)
(** * Proofs *)

(** ** HMAC-SHA256 against published test vectors *)

Example sha256_abc :
  to_hex (Sha256.digest (utf8_encode (js "abc")))
  = js "ba7816bf8f01cfea414140de5dae2223b00361a396177a9cb410ff61f20015ad".
Proof. vm_compute. reflexivity. Qed.

Example hmac_fox :
  hmac_sha256_hex (js "key") (js "The quick brown fox jumps over the lazy dog")
  = js "f7bc83f430538424b13298e6aa6fb143ef4d59a14946175997479dbc2d1a3cd8".
Proof. vm_compute. reflexivity. Qed.

(** ** Signing *)

Section LexOrder.

Lemma lex_le_cons x a y b :
  lex_le (x :: a) (y :: b) <-> x < y \/ (x = y /\ lex_le a b).
Proof.
  unfold lex_le; simpl.
  rewrite orb_true_iff, andb_true_iff, Z.ltb_lt, Z.eqb_eq. tauto.
Qed.

Lemma lex_le_nil_l b : lex_le [] b.
Proof. reflexivity. Qed.

Lemma lex_le_nil_r x a : ~ lex_le (x :: a) [].
Proof. unfold lex_le; simpl. discriminate. Qed.

#[global] Instance lex_le_total : Total lex_le.
Proof.
  intros a. induction a as [|x a IH]; intros [|y b].
  - left; apply lex_le_nil_l.
  - left; apply lex_le_nil_l.
  - right; apply lex_le_nil_l.
  - rewrite !lex_le_cons.
    destruct (Z.lt_trichotomy x y) as [Hxy|[Hxy|Hxy]].
    + left; left; exact Hxy.
    + subst y. destruct (IH b); [left|right]; right; auto.
    + right; left; exact Hxy.
Qed.

#[global] Instance lex_le_trans : Transitive lex_le.
Proof.
  intros a. induction a as [|x a IH]; intros [|y b] [|z c] H1 H2.
  - apply lex_le_nil_l.
  - apply lex_le_nil_l.
  - apply lex_le_nil_l.
  - apply lex_le_nil_l.
  - exfalso; exact (lex_le_nil_r _ _ H1).
  - exfalso; exact (lex_le_nil_r _ _ H1).
  - exfalso; exact (lex_le_nil_r _ _ H2).
  - rewrite lex_le_cons in *.
    destruct H1 as [H1|[-> H1]], H2 as [H2|[-> H2]].
    + left; lia.
    + left; lia.
    + left; lia.
    + right; split; [reflexivity|exact (IH _ _ H1 H2)].
Qed.

#[global] Instance lex_le_antisymm : AntiSymm (=) lex_le.
Proof.
  intros a. induction a as [|x a IH]; intros [|y b] H1 H2.
  - reflexivity.
  - exfalso; exact (lex_le_nil_r _ _ H2).
  - exfalso; exact (lex_le_nil_r _ _ H1).
  - rewrite lex_le_cons in *.
    destruct H1 as [H1|[-> H1]], H2 as [H2|[He H2]]; try lia.
    f_equal; exact (IH _ H1 H2).
Qed.

End LexOrder.

Lemma js_sort_strings_unique (l ks : list jsstr) :
  Sorted lex_le ks -> ks ≡ₚ l -> js_sort_strings l = ks.
Proof.
  intros Hs Hp. unfold js_sort_strings.
  apply (Sorted_unique lex_le).
  - apply Sorted_merge_sort. apply _.
  - exact Hs.
  - rewrite merge_sort_Permutation. symmetry. exact Hp.
Qed.

Lemma obj_get_elem (o : jsobj) (k : jsstr) (v : jsval) :
  NoDup (obj_keys o) -> (k, v) ∈ o -> obj_get o k = v.
Proof.
  induction o as [|[k' v'] o IH]; intros Hnd Hin; simpl.
  - exfalso. by apply not_elem_of_nil in Hin.
  - unfold obj_keys in Hnd. simpl in Hnd. apply NoDup_cons in Hnd as [Hk' Hnd].
    apply elem_of_cons in Hin as [Heq|Hin].
    + injection Heq as -> ->. by rewrite bool_decide_true.
    + case_bool_decide as Hkk.
      * subst k'. exfalso. apply Hk'. apply list_elem_of_fmap. exists (k, v). done.
      * by apply IH.
Qed.

Lemma obj_get_not_key (o : jsobj) (k : jsstr) :
  k ∉ obj_keys o -> obj_get o k = JUndefined.
Proof.
  induction o as [|[k' v'] o IH]; intros Hk; simpl; [done|].
  unfold obj_keys in Hk. simpl in Hk. apply not_elem_of_cons in Hk as [Hne Hk].
  rewrite bool_decide_false by done. by apply IH.
Qed.

Lemma obj_get_perm (o1 o2 : jsobj) (k : jsstr) :
  NoDup (obj_keys o1) -> o1 ≡ₚ o2 -> obj_get o1 k = obj_get o2 k.
Proof.
  intros Hnd Hp.
  assert (Hk : obj_keys o1 ≡ₚ obj_keys o2) by (unfold obj_keys; by rewrite Hp).
  assert (Hnd2 : NoDup (obj_keys o2)) by (by rewrite <- Hk).
  destruct (decide (k ∈ obj_keys o1)) as [Hin|Hnin].
  - unfold obj_keys in Hin. apply list_elem_of_fmap in Hin as [[k' v] [-> Hin]].
    simpl. rewrite (obj_get_elem o1 k' v Hnd Hin).
    symmetry. apply obj_get_elem; [done|]. by rewrite <- Hp.
  - rewrite !obj_get_not_key; [done| |done]. by rewrite <- Hk.
Qed.

Lemma signature_base_loop_tail (data : jsobj) (ks : list jsstr) (i : nat) (base : jsstr) :
  (0 < i)%nat ->
  Signature.signature_base_loop data ks i base
  = base ++ mbind (fun q => js "&" ++ q)
                  (map (fun k => k ++ js "=" ++ to_js_string (obj_get data k)) ks).
Proof.
  revert i base. induction ks as [|k ks IH]; intros i base Hi; simpl.
  - by rewrite app_nil_r.
  - assert (Hlt : (0 <? i)%nat = true) by (apply Nat.ltb_lt; lia).
    rewrite Hlt, IH by lia. rewrite <- !app_assoc. simpl. try rewrite <- !app_assoc. reflexivity.
Qed.

Lemma signature_base_loop_canonical (data : jsobj) (ks : list jsstr) :
  Signature.signature_base_loop data ks 0 [] = Signature.canonical_string ks data.
Proof.
  destruct ks as [|k ks]; [reflexivity|].
  simpl. rewrite signature_base_loop_tail by lia. reflexivity.
Qed.

Lemma canonical_string_ext (ks : list jsstr) (d1 d2 : jsobj) :
  (forall k, obj_get d1 k = obj_get d2 k) ->
  Signature.canonical_string ks d1 = Signature.canonical_string ks d2.
Proof.
  intros H. unfold Signature.canonical_string. f_equal.
  apply map_ext. intros k. by rewrite H.
Qed.

(** Claim C1: signing does not depend on the insertion order of the
    parameter map, and it is the lowercase hex HMAC-SHA256, under the
    secret, of the keys sorted lexicographically joined as
    [k1=v1&k2=v2&...] without a trailing separator. *)
Theorem calculateSignature_order_insensitive_canonical
    (d1 d2 : jsobj) (secret : jsstr) (ks : list jsstr) :
  NoDup (obj_keys d1) -> d1 ≡ₚ d2 ->
  Sorted lex_le ks -> ks ≡ₚ obj_keys d1 ->
  Signature.calculateSignature d1 secret = Signature.calculateSignature d2 secret /\
  Signature.calculateSignature d1 secret
  = hmac_sha256_hex secret (Signature.canonical_string ks d1).
Proof.
  intros Hnd Hp Hs Hk.
  assert (Hk2 : ks ≡ₚ obj_keys d2) by (rewrite Hk; unfold obj_keys; by rewrite Hp).
  unfold Signature.calculateSignature.
  rewrite (js_sort_strings_unique _ ks Hs Hk), (js_sort_strings_unique _ ks Hs Hk2).
  rewrite !signature_base_loop_canonical.
  split; [|reflexivity].
  f_equal. apply canonical_string_ext. intros k. by apply obj_get_perm.
Qed.

(** The scenario of the spec: both insertion orders sign as ["a=1&b=2"]. *)
Lemma calculateSignature_order_insensitive_canonical_witness :
  Signature.calculateSignature params_ba (js "secret")
  = Signature.calculateSignature params_ab (js "secret") /\
  Signature.calculateSignature params_ba (js "secret")
  = hmac_sha256_hex (js "secret") (js "a=1&b=2").
Proof.
  destruct (calculateSignature_order_insensitive_canonical params_ba params_ab
              (js "secret") [js "a"; js "b"]) as [H1 H2].
  - unfold params_ba, obj_keys. simpl. apply NoDup_cons. split; [|apply NoDup_singleton].
    apply not_elem_of_cons. split; [discriminate|apply not_elem_of_nil].
  - unfold params_ba, params_ab. apply Permutation_swap.
  - repeat constructor.
  - unfold params_ba, obj_keys. simpl. apply Permutation_swap.
  - split; [exact H1|]. rewrite H2. reflexivity.
Defined.

Example calculateSignature_ab_hex :
  Signature.calculateSignature params_ab (js "secret")
  = js "604fe97c66c6393ff22e3cae366eee1131e351ebc736bf12f5d62e1755b7a233".
Proof. vm_compute. reflexivity. Qed.

(** *** Length of the digest *)

Lemma round_length (st : list Z) (kw : Z * Z) :
  length st = 8%nat -> length (Sha256.round st kw) = 8%nat.
Proof.
  intros H. do 8 (destruct st as [|? st]; [discriminate|]).
  destruct st; [reflexivity|discriminate].
Qed.

Lemma foldl_round_length (kws : list (Z * Z)) (st : list Z) :
  length st = 8%nat -> length (foldl Sha256.round st kws) = 8%nat.
Proof.
  revert st. induction kws as [|kw kws IH]; intros st H; simpl; [done|].
  apply IH, round_length, H.
Qed.

Lemma foldl_compress_length (blocks : list (list Z)) (hs : list Z) :
  length hs = 8%nat -> length (foldl Sha256.compress hs blocks) = 8%nat.
Proof.
  revert hs. induction blocks as [|b blocks IH]; intros hs H; simpl; [done|].
  apply IH. unfold Sha256.compress. rewrite length_zip_with.
  rewrite foldl_round_length by done. lia.
Qed.

Lemma hmac_sha256_hex_nonempty (secret s : jsstr) : hmac_sha256_hex secret s <> [].
Proof.
  unfold hmac_sha256_hex, hmac_sha256, Sha256.digest.
  set (blocks := Sha256.chunks _ _ _).
  assert (Hl := foldl_compress_length blocks Sha256.H0 eq_refl).
  destruct (foldl Sha256.compress Sha256.H0 blocks) as [|x hs]; [discriminate|].
  simpl. unfold to_hex. simpl. discriminate.
Qed.

(** *** Object operations and the [sign] key *)

Lemma obj_keys_delete (o : jsobj) (k k' : jsstr) :
  k' ∈ obj_keys (obj_delete o k) -> k' ∈ obj_keys o.
Proof.
  induction o as [|[k0 v0] o IH]; simpl; [done|].
  unfold obj_keys in *. simpl.
  case_bool_decide as Hk; simpl; rewrite ?elem_of_cons; intros H.
  - right. by apply IH.
  - destruct H as [H|H]; [by left|right; by apply IH].
Qed.

Lemma obj_keys_strip_loop (ks : list jsstr) (o : jsobj) (k' : jsstr) :
  k' ∈ obj_keys (foldl (fun p key => if Signature.is_empty_value (obj_get p key)
                                     then obj_delete p key else p) o ks) ->
  k' ∈ obj_keys o.
Proof.
  revert o. induction ks as [|k ks IH]; intros o H; cbn [foldl] in H; [done|].
  apply IH in H. destruct (Signature.is_empty_value (obj_get o k)); [|done].
  by apply obj_keys_delete in H.
Qed.

Lemma obj_keys_strip (o : jsobj) (k' : jsstr) :
  k' ∈ obj_keys (Signature.strip_empty o) -> k' ∈ obj_keys o.
Proof. apply obj_keys_strip_loop. Qed.

Lemma obj_keys_set (o : jsobj) (k k' : jsstr) (v : jsval) :
  k' ∈ obj_keys (obj_set o k v) -> k' = k \/ k' ∈ obj_keys o.
Proof.
  induction o as [|[k0 v0] o IH]; simpl; unfold obj_keys in *; simpl.
  - rewrite elem_of_cons. intros [H|H]; [by left|by apply not_elem_of_nil in H].
  - case_bool_decide as Hk; simpl; rewrite !elem_of_cons; intros [H|H].
    + right; by left.
    + right; by right.
    + right; by left.
    + destruct (IH H) as [H'|H']; [by left|right; by right].
Qed.

Lemma obj_set_new (o : jsobj) (k : jsstr) (v : jsval) :
  k ∉ obj_keys o -> obj_set o k v = o ++ [(k, v)].
Proof.
  induction o as [|[k0 v0] o IH]; intros Hk; simpl; [done|].
  unfold obj_keys in Hk; simpl in Hk. apply not_elem_of_cons in Hk as [Hne Hk].
  rewrite bool_decide_false by done. f_equal. by apply IH.
Qed.

Lemma obj_get_snoc_new (o : jsobj) (k : jsstr) (v : jsval) :
  k ∉ obj_keys o -> obj_get (o ++ [(k, v)]) k = v.
Proof.
  induction o as [|[k0 v0] o IH]; intros Hk; simpl.
  - by rewrite bool_decide_true.
  - unfold obj_keys in Hk; simpl in Hk. apply not_elem_of_cons in Hk as [Hne Hk].
    rewrite bool_decide_false by done. by apply IH.
Qed.

Lemma obj_delete_snoc_new (o : jsobj) (k : jsstr) (v : jsval) :
  k ∉ obj_keys o -> obj_delete (o ++ [(k, v)]) k = o.
Proof.
  induction o as [|[k0 v0] o IH]; intros Hk; simpl.
  - by rewrite bool_decide_true.
  - unfold obj_keys in Hk; simpl in Hk. apply not_elem_of_cons in Hk as [Hne Hk].
    rewrite bool_decide_false by done. f_equal. by apply IH.
Qed.

Lemma sign_not_in_set (o : jsobj) (k : jsstr) (v : jsval) :
  js "sign" ∉ obj_keys o -> k <> js "sign" -> js "sign" ∉ obj_keys (obj_set o k v).
Proof.
  intros Ho Hk H. apply obj_keys_set in H as [H|H]; [by apply Hk|by apply Ho].
Qed.

Lemma payload_before_sign_no_sign (now : Z) (fields : jsobj) (apiKey : jsval) :
  js "sign" ∉ obj_keys fields ->
  js "sign" ∉ obj_keys (Signature.payload_before_sign now fields apiKey).
Proof.
  intros Hs H. unfold Signature.payload_before_sign in H.
  apply obj_keys_strip in H. revert H.
  repeat case_match; repeat (apply sign_not_in_set; [|discriminate]); exact Hs.
Qed.

(** Round trip of signing for parameter maps without a [sign] key:
    verification accepts what [prepareSignedPayload] produces; the payload is
    the stripped map followed by [sign], the signature of exactly that
    stripped map. *)
Theorem prepareSignedPayload_verifies
    (now : Z) (fields : jsobj) (apiKey : jsval) (secret : jsstr) :
  js "sign" ∉ obj_keys fields ->
  let base := Signature.payload_before_sign now fields apiKey in
  (js "sign" ∉ obj_keys base) /\
  Signature.prepareSignedPayload now fields apiKey secret
  = base ++ [(js "sign", JStr (Signature.calculateSignature base secret))] /\
  Signature.verifySignature (Signature.prepareSignedPayload now fields apiKey secret) secret
  = true.
Proof.
  intros Hs base.
  assert (Hb : js "sign" ∉ obj_keys base) by (by apply payload_before_sign_no_sign).
  assert (Hp : Signature.prepareSignedPayload now fields apiKey secret
               = base ++ [(js "sign", JStr (Signature.calculateSignature base secret))])
    by (unfold Signature.prepareSignedPayload; fold base; by apply obj_set_new).
  split; [exact Hb|]. split; [exact Hp|].
  rewrite Hp. unfold Signature.verifySignature.
  rewrite obj_get_snoc_new, obj_delete_snoc_new by exact Hb.
  simpl. destruct (Signature.calculateSignature base secret) eqn:Hc.
  - exfalso. revert Hc. apply hmac_sha256_hex_nonempty.
  - simpl. by rewrite bool_decide_true.
Qed.

Lemma prepareSignedPayload_verifies_witness :
  (js "sign" ∉ obj_keys login_fields) /\
  Signature.verifySignature
    (Signature.prepareSignedPayload 1700000000000 login_fields (JStr (js "key")) (js "secret"))
    (js "secret") = true.
Proof.
  assert (H : js "sign" ∉ obj_keys login_fields).
  { unfold login_fields, obj_keys. simpl.
    repeat (apply not_elem_of_cons; split; [discriminate|]). apply not_elem_of_nil. }
  split; [exact H|].
  exact (proj2 (proj2 (prepareSignedPayload_verifies 1700000000000 login_fields
                         (JStr (js "key")) (js "secret") H))).
Defined.

(** Claim C2 (code defect): a caller field [sign] (a valid, non-empty
    value) is kept in the signing input, then overwritten by the signature,
    and verification rejects the payload. *)
Lemma prepareSignedPayload_caller_sign_rejected :
  let fields := [(js "sign", JStr (js "abc"))] in
  Signature.verifySignature
    (Signature.prepareSignedPayload 1700000000000 fields (JStr (js "key")) (js "secret"))
    (js "secret") = false.
Proof. vm_compute. reflexivity. Qed.

(** ** Decryption *)

Lemma slice_loop_concat (fuel : nat) (rawData : list Z) (i : nat) :
  (length rawData - i <= fuel)%nat ->
  mbind id (slice_loop fuel rawData i) = drop i rawData.
Proof.
  revert i. induction fuel as [|f IH]; intros i Hf; simpl.
  - symmetry. apply drop_ge. lia.
  - destruct (Nat.ltb_spec i (length rawData)) as [Hi|Hi].
    + simpl. rewrite IH by (unfold chunkSize; lia).
      unfold chunkSize. rewrite <- drop_drop. apply take_drop.
    + symmetry. apply drop_ge. lia.
Qed.

Lemma slice_loop_sizes (fuel : nat) (rawData : list Z) (i : nat) :
  Forall (fun b => 0 < length b <= chunkSize)%nat (slice_loop fuel rawData i).
Proof.
  revert i. induction fuel as [|f IH]; intros i; simpl; [constructor|].
  destruct (Nat.ltb_spec i (length rawData)) as [Hi|Hi]; [|constructor].
  constructor; [|apply IH].
  rewrite length_take, length_drop. unfold chunkSize. lia.
Qed.

Lemma split_blocks_concat (rawData : list Z) :
  mbind id (split_blocks rawData) = rawData.
Proof. unfold split_blocks. rewrite slice_loop_concat by lia. apply drop_0. Qed.

Lemma split_blocks_sizes (rawData : list Z) :
  Forall (fun b => 0 < length b <= chunkSize)%nat (split_blocks rawData).
Proof. apply slice_loop_sizes. Qed.

Section DecryptionProofs.

Variable jsencrypt_decrypt : jsstr -> option jsstr.
Variable base64_decode : jsstr -> list Z.
Variable base64_encode : list Z -> jsstr.
Variable decodeURIComponent : jsstr -> exc jsstr.
Variable json_parse : jsstr -> exc json.
Variable aes_decrypt_utf8 : jsstr -> exc jsstr.
Variable aes_decrypt_ciphertext_utf8 : jsstr -> exc jsstr.

Local Abbreviation chunks_of := (rsa_chunks base64_decode base64_encode).
Local Abbreviation decrypt_all := (decrypt_chunks jsencrypt_decrypt).
Local Abbreviation raw_result :=
  (rsa_decrypted_result jsencrypt_decrypt base64_decode base64_encode).
Local Abbreviation decryptRSA :=
  (decryptRSAResponse jsencrypt_decrypt base64_decode base64_encode
     decodeURIComponent json_parse).
Local Abbreviation decryptAES :=
  (decryptAESString aes_decrypt_utf8 aes_decrypt_ciphertext_utf8).
Local Abbreviation process :=
  (processApiResponse jsencrypt_decrypt base64_decode base64_encode
     decodeURIComponent json_parse aes_decrypt_utf8 aes_decrypt_ciphertext_utf8).

Lemma decrypt_chunks_fail (cs : list jsstr) (j i : nat) (c : jsstr) :
  cs !! i = Some c -> jsencrypt_decrypt c = None ->
  exists e, decrypt_all j cs = Throw e.
Proof.
  revert j i. induction cs as [|c0 cs IH]; intros j i Hi Hc; [discriminate|].
  simpl. destruct (jsencrypt_decrypt c0) as [d|] eqn:Hd; [|by eexists].
  destruct i as [|i]; simpl in Hi.
  - injection Hi as ->. congruence.
  - destruct (IH (S j) i Hi Hc) as [e He]. rewrite He. by eexists.
Qed.

Lemma decrypt_chunks_ok (cs ds : list jsstr) (j : nat) :
  Forall2 (fun c d => jsencrypt_decrypt c = Some d) cs ds ->
  decrypt_all j cs = Ok ds.
Proof.
  intros H. revert j. induction H as [|c d cs ds Hcd _ IH]; intros j; simpl; [done|].
  by rewrite Hcd, IH.
Qed.

(** Claim C3: when the single-block decryption fails, the ciphertext is
    base64-decoded and split into blocks of at most 128 bytes that
    re-assemble the raw bytes; each block is base64-encoded and decrypted on
    its own; one failing block makes [decryptRSAResponse] return [null],
    and when every block decrypts the decrypted result is the concatenation
    of the block plaintexts in order. *)
Theorem decryptRSAResponse_chunked (encryptedData : jsstr) :
  jsencrypt_decrypt encryptedData = None ->
  let blocks := split_blocks (base64_decode encryptedData) in
  chunks_of encryptedData = map base64_encode blocks /\
  mbind id blocks = base64_decode encryptedData /\
  Forall (fun b => 0 < length b <= 128)%nat blocks /\
  ((exists i c, chunks_of encryptedData !! i = Some c /\ jsencrypt_decrypt c = None) ->
   (exists e, raw_result encryptedData = Throw e) /\ decryptRSA encryptedData = JSNull) /\
  (forall ds, Forall2 (fun c d => jsencrypt_decrypt c = Some d) (chunks_of encryptedData) ds ->
   raw_result encryptedData = Ok (mbind id ds)).
Proof.
  intros Hsingle blocks.
  split; [reflexivity|]. split; [apply split_blocks_concat|].
  split; [apply split_blocks_sizes|]. split.
  - intros (i & c & Hi & Hc).
    destruct (decrypt_chunks_fail _ 0 i c Hi Hc) as [e He].
    assert (Hr : raw_result encryptedData = Throw e)
      by (unfold rsa_decrypted_result; by rewrite Hsingle, He).
    split; [by eexists|].
    unfold decryptRSAResponse, decryptRSAResponse_body. by rewrite Hr.
  - intros ds Hds. unfold rsa_decrypted_result.
    by rewrite Hsingle, (decrypt_chunks_ok _ _ 0 Hds).
Qed.

(** Claim C4: when [data] is a string on which both the RSA path and the
    AES path fail, [processApiResponse] returns the response unchanged (the
    embedding is total: every failure inside is caught). *)
Theorem processApiResponse_undecryptable_unchanged
    (response : list (jsstr * json)) (s : jsstr) :
  json_get response (js "data") = Some (JSStr s) ->
  json_truthy (decryptRSA s) = false ->
  decryptAES s = None ->
  process response = response.
Proof.
  intros Hd Hrsa Haes. unfold processApiResponse. rewrite Hd.
  case_bool_decide; [reflexivity|].
  by rewrite Hrsa, Haes.
Qed.

End DecryptionProofs.

Lemma decryptRSAResponse_chunked_witness :
  toy_rsa (repeat 65 200) = None /\
  rsa_decrypted_result toy_rsa id id (repeat 65 200)
  = Ok (mbind id [repeat 65 128; repeat 65 72]).
Proof.
  split; [reflexivity|].
  apply (decryptRSAResponse_chunked toy_rsa id id Ok toy_parse (repeat 65 200)
           eq_refl).
  vm_compute. repeat constructor.
Defined.

Lemma processApiResponse_undecryptable_unchanged_witness :
  processApiResponse (fun _ => None) (fun _ => []) id Ok toy_parse
    (fun _ => Ok []) (fun _ => Ok []) undecryptable_envelope
  = undecryptable_envelope.
Proof.
  apply (processApiResponse_undecryptable_unchanged (fun _ => None) (fun _ => []) id Ok
           toy_parse (fun _ => Ok []) (fun _ => Ok []) undecryptable_envelope
           (js "bm90LWNpcGhlcnRleHQ=")); reflexivity.
Defined.

(** ** Token search *)

Module TokenSearchProofs.
Import TokenSearch.

Lemma json_nested_ind (P : json -> Prop) :
  P JSNull -> (forall b, P (JSBool b)) -> (forall z, P (JSNum z)) ->
  (forall s, P (JSStr s)) ->
  (forall items, Forall P items -> P (JSArr items)) ->
  (forall fields, Forall (fun kv => P kv.2) fields -> P (JSObj fields)) ->
  forall v, P v.
Proof.
  intros Hn Hb Hz Hs Ha Ho. fix IH 1. intros [| b | z | s | items | fields].
  - exact Hn.
  - apply Hb.
  - apply Hz.
  - apply Hs.
  - apply Ha.
    exact ((fix go (l : list json) : Forall P l :=
              match l with
              | [] => List.Forall_nil _
              | x :: l' => List.Forall_cons _ x l' (IH x) (go l')
              end) items).
  - apply Ho.
    exact ((fix go (l : list (jsstr * json)) : Forall (fun kv => P kv.2) l :=
              match l with
              | [] => List.Forall_nil _
              | kv :: l' => List.Forall_cons _ kv l' (IH kv.2) (go l')
              end) fields).
Qed.

Lemma json_get_elem (fields : list (jsstr * json)) (k : jsstr) (v : json) :
  json_get fields k = Some v -> (k, v) ∈ fields.
Proof.
  induction fields as [|[k' v'] fields IH]; simpl; [discriminate|].
  case_bool_decide as Hk; intros H.
  - injection H as <-. subst. left.
  - right. by apply IH.
Qed.

Lemma first_truthy_some {A} (f : A -> option json) (l : list A) (t : json) :
  first_truthy f l = Some t -> exists x, x ∈ l /\ f x = Some t /\ json_truthy t = true.
Proof.
  induction l as [|x l IH]; simpl; [discriminate|].
  destruct (opt_truthy (f x)) eqn:Hx; intros H.
  - exists x. rewrite H in Hx. simpl in Hx. split; [left|done].
  - destruct (IH H) as (y & Hy & Hfy & Ht). exists y. split; [by right|done].
Qed.

Lemma first_truthy_found {A} (f : A -> option json) (l : list A) (x : A) :
  x ∈ l -> opt_truthy (f x) = true -> exists t, first_truthy f l = Some t.
Proof.
  induction l as [|y l IH]; intros Hx Ht; [by apply not_elem_of_nil in Hx|].
  simpl. destruct (opt_truthy (f y)) eqn:Hy.
  - destruct (f y) as [t|]; [by exists t|discriminate].
  - apply elem_of_cons in Hx as [->|Hx]; [congruence|]. by apply IH.
Qed.

Lemma findToken_sound (v t : json) :
  findToken v = Some t -> token_reachable v t /\ json_truthy t = true.
Proof.
  revert t. induction v as [| b | z | s | items IH | fields IH] using json_nested_ind;
    intros t H; cbn [findToken] in H; try discriminate.
  - apply first_truthy_some in H as (x & Hx & Hf & Ht).
    rewrite Forall_forall in IH. destruct (IH x Hx t Hf) as [Hr _].
    split; [by eapply tr_elem|done].
  - destruct (opt_truthy (json_get fields (js "token"))) eqn:Htok.
    + rewrite H in Htok. simpl in Htok. split; [by apply tr_here|done].
    + apply first_truthy_some in H as ([k x] & Hx & Hf & Ht).
      rewrite Forall_forall in IH. destruct (IH (k, x) Hx t Hf) as [Hr _].
      split; [by eapply tr_field|done].
Qed.

Lemma findToken_complete (v t : json) :
  token_reachable v t -> exists t', findToken v = Some t'.
Proof.
  induction 1 as [fields t Hg Ht | fields k x t Hx _ [t' IH] | items x t Hx _ [t' IH]].
  - cbn [findToken]. rewrite Hg. simpl. rewrite Ht. by exists t.
  - cbn [findToken]. destruct (opt_truthy (json_get fields (js "token"))) eqn:Htok.
    + destruct (json_get fields (js "token")) as [u|]; [by exists u|discriminate].
    + apply (first_truthy_found (fun kv => findToken kv.2) fields (k, x) Hx).
      simpl. rewrite IH. simpl. apply (findToken_sound _ _ IH).
  - cbn [findToken]. apply (first_truthy_found findToken items x Hx).
    rewrite IH. simpl. apply (findToken_sound _ _ IH).
Qed.

Lemma token_reachable_truthy (v t : json) : token_reachable v t -> json_truthy v = true.
Proof. by destruct 1. Qed.

(** The [data.data.token] check, by the shape of [data.data]. *)
Local Ltac data_token_cases :=
  lazymatch goal with
  | |- context [json_get ?fields (js "data")] =>
      destruct (json_get fields (js "data")) as [[| [] | z2 | s2 | items2 | fields2]|];
      cbn [member opt_truthy json_truthy andb option_list option_rect List.find];
      [..| destruct (json_get fields2 (js "token")) as [u|];
           cbn [opt_truthy option_list option_rect List.find andb];
           [destruct (json_truthy u)|] |];
      rewrite ?andb_false_r, ?andb_true_r; try reflexivity;
      repeat match goal with
             | |- context [if negb ?b then _ else _] => destruct b
             end; reflexivity
  end.

Lemma find_app {A} (f : A -> bool) (l1 l2 : list A) :
  List.find f (l1 ++ l2) =
  match List.find f l1 with Some x => Some x | None => List.find f l2 end.
Proof.
  induction l1 as [|x l1 IH]; simpl; [done|].
  destruct (f x); [done|exact IH].
Qed.

Lemma first_truthy_find {A} (f : A -> option json) (g : A -> list json) (l : list A) :
  Forall (fun x => f x = List.find json_truthy (g x)) l ->
  first_truthy f l = List.find json_truthy (flat_map g l).
Proof.
  induction 1 as [|x l Hx _ IH]; simpl; [done|].
  rewrite find_app, <- Hx. destruct (f x) as [t|] eqn:Hf; cbn [opt_truthy].
  - symmetry in Hx. apply List.find_some in Hx as [_ ->]. done.
  - exact IH.
Qed.

(** [findToken] returns the first truthy [token] value in depth-first
    preorder. *)
Lemma findToken_preorder (v : json) :
  findToken v = List.find json_truthy (preorder_tokens v).
Proof.
  induction v as [| b | z | s | items IH | fields IH] using json_nested_ind;
    try reflexivity.
  - cbn [findToken preorder_tokens]. by apply first_truthy_find.
  - cbn [findToken preorder_tokens]. rewrite find_app.
    destruct (json_get fields (js "token")) as [t|]; cbn [opt_truthy option_list option_rect List.find].
    + destruct (json_truthy t); [done|]. by apply first_truthy_find.
    + by apply first_truthy_find.
Qed.

(** Claim C5 (as amended): with [data] present, the token search returns
    the first truthy candidate in the order [data.token], [data.data.token],
    then a depth-first search through objects and arrays alike that looks
    at a node's own [token] before its children.  So it returns only truthy
    [token] values found somewhere in [data], and it returns a token
    exactly when such a value exists at some depth. *)
Theorem extractToken_search (response d : json) :
  member (Some response) (js "data") = Some d ->
  _extractTokenFromResponse response = List.find json_truthy (token_check_order d) /\
  (forall t, _extractTokenFromResponse response = Some t -> token_reachable d t) /\
  ((exists t, token_reachable d t) <-> exists t, _extractTokenFromResponse response = Some t).
Proof.
  intros Hd.
  assert (Horder : _extractTokenFromResponse response
                   = List.find json_truthy (token_check_order d)).
  { unfold _extractTokenFromResponse, token_check_order. rewrite Hd, !find_app.
    rewrite <- findToken_preorder.
    destruct d as [| [] | z | s | items | fields]; try reflexivity.
    - cbn. destruct (z =? 0); reflexivity.
    - cbn. destruct (bool_decide (s = [])); reflexivity.
    - cbn [member is_object opt_truthy json_truthy andb option_list option_rect List.find].
      destruct (json_get fields (js "token")) as [t|];
        cbn [opt_truthy option_list option_rect List.find andb].
      + destruct (json_truthy t); [done|]. data_token_cases.
      + data_token_cases. }
  split; [exact Horder|].
  assert (Hsound : forall t, _extractTokenFromResponse response = Some t -> token_reachable d t).
  { intros t. unfold _extractTokenFromResponse. rewrite Hd.
    destruct (opt_truthy (Some d) && is_object (Some d)
              && opt_truthy (member (Some d) (js "token"))) eqn:H1.
    { intros Ht. apply andb_true_iff in H1 as [_ H1].
      destruct d as [| | | | | fields]; simpl in *; try discriminate.
      rewrite Ht in H1. simpl in H1. by apply tr_here. }
    destruct (opt_truthy (Some d) && opt_truthy (member (Some d) (js "data"))
              && opt_truthy (member (member (Some d) (js "data")) (js "token"))) eqn:H2.
    { intros Ht. apply andb_true_iff in H2 as [_ H2].
      destruct d as [| | | | | fields]; cbn [member] in Ht, H2; try discriminate.
      destruct (json_get fields (js "data")) as [[| | | | | fields2]|] eqn:Hg;
        cbn [member] in Ht, H2; try discriminate.
      rewrite Ht in H2. cbn [opt_truthy] in H2.
      eapply tr_field; [by apply json_get_elem|]. by apply tr_here. }
    destruct (json_truthy d); [|discriminate].
    intros Ht. by apply findToken_sound. }
  split; [exact Hsound|]. split.
  - intros [t Ht]. unfold _extractTokenFromResponse. rewrite Hd.
    destruct (opt_truthy (Some d) && is_object (Some d)
              && opt_truthy (member (Some d) (js "token"))) eqn:H1.
    { apply andb_true_iff in H1 as [_ H1].
      destruct (member (Some d) (js "token")) as [u|]; [by exists u|discriminate]. }
    destruct (opt_truthy (Some d) && opt_truthy (member (Some d) (js "data"))
              && opt_truthy (member (member (Some d) (js "data")) (js "token"))) eqn:H2.
    { apply andb_true_iff in H2 as [_ H2].
      destruct (member (member (Some d) (js "data")) (js "token")) as [u|];
        [by exists u|discriminate]. }
    rewrite (token_reachable_truthy _ _ Ht). by apply (findToken_complete d t).
  - intros [t Ht]. exists t. by apply Hsound.
Qed.

Lemma extractToken_search_witness :
  (exists t, _extractTokenFromResponse login_response = Some t) /\
  _extractTokenFromResponse two_token_response = Some (JSStr (js "a")).
Proof.
  split.
  - destruct (extractToken_search login_response
                (JSObj [(js "user", JSObj [(js "id", JSNum 7);
                                           (js "session", JSObj [(js "expires", JSNum 86400);
                                                                 (js "token", JSStr (js "jwt"))])]);
                        (js "lang", JSStr (js "en_US"))]) eq_refl) as [_ [_ [Hc _]]].
    apply Hc. exists (JSStr (js "jwt")).
    eapply tr_field; [left|].
    eapply tr_field; [right; left|].
    apply tr_here; reflexivity.
  - destruct (extractToken_search two_token_response
                (JSObj [(js "token", JSStr (js "a"));
                        (js "x", JSObj [(js "token", JSStr (js "b"))])]) eq_refl)
      as [Horder _].
    rewrite Horder. vm_compute. reflexivity.
Defined.

Example extractToken_depth3 :
  _extractTokenFromResponse login_response = Some (JSStr (js "jwt")).
Proof. reflexivity. Qed.

(** Claim C5 fails as stated: the search descends into arrays (the result
    depends on what an array holds), and a [token] field whose value is
    falsy is not returned. *)
Lemma extractToken_arrays_and_falsy_counterexample :
  _extractTokenFromResponse
    (JSObj [(js "data", JSObj [(js "items", JSArr [JSObj [(js "token", JSStr (js "t"))]])])])
  = Some (JSStr (js "t")) /\
  _extractTokenFromResponse
    (JSObj [(js "data", JSObj [(js "items", JSArr [])])]) = None /\
  _extractTokenFromResponse
    (JSObj [(js "data", JSObj [(js "token", JSStr [])])]) = None.
Proof. split; [reflexivity|split; reflexivity]. Qed.

End TokenSearchProofs.

(** ** Dispatch: retries and statistics *)

Module ClientProofs.
Import Client ClientSpec.

Lemma find_call_snoc (l : list call) (x : call) :
  find_call l (call_id x) = None -> find_call (l ++ [x]) (call_id x) = Some x.
Proof.
  induction l as [|y l IH]; simpl; intros H.
  - by rewrite Nat.eqb_refl.
  - destruct (call_id y =? call_id x)%nat; [discriminate|]. by apply IH.
Qed.

Lemma find_call_some_id (l : list call) (id : nat) (x : call) :
  find_call l id = Some x -> call_id x = id.
Proof.
  induction l as [|y l IH]; simpl; [discriminate|].
  destruct (Nat.eqb_spec (call_id y) id); [intros [= <-]; done|apply IH].
Qed.

Lemma find_call_replace (l : list call) (x y : call) :
  find_call l (call_id x) = Some y -> find_call (replace_call l x) (call_id x) = Some x.
Proof.
  induction l as [|z l IH]; simpl; [discriminate|].
  destruct (Nat.eqb_spec (call_id z) (call_id x)) as [Hz|Hz]; intros H.
  - rewrite Nat.eqb_refl. reflexivity.
  - simpl. apply Nat.eqb_neq in Hz. rewrite Hz. by apply IH.
Qed.

Lemma find_call_remove (l : list call) (id : nat) : find_call (remove_call l id) id = None.
Proof.
  unfold remove_call.
  induction l as [|z l IH]; [done|].
  rewrite filter_cons.
  destruct (Nat.eqb_spec (call_id z) id) as [Hz|Hz];
    destruct (decide _) as [Hd|Hd]; simpl in Hd; try contradiction; [exact IH|].
  simpl. apply Nat.eqb_neq in Hz. rewrite Hz. exact IH.
Qed.

Lemma run_fail_tail (id : nat) (maxA : nat) (e : jsstr) (es : list jsstr) :
  forall (c : client) (a : nat),
  find_call (calls c) id = Some (mkCall id a maxA AwaitHttp) ->
  (a + S (length es) = maxA)%nat ->
  exists c', run c (fail_events id es e) = Some (c', retry_tail id (S a) es e) /\
             find_call (calls c') id = None.
Proof.
  induction es as [|x es IH]; intros c a Hf Hlen.
  - unfold fail_events. simpl. rewrite Hf.
    replace (maxA <=? S a)%nat with true by (symmetry; apply Nat.leb_le; simpl in Hlen; lia).
    eexists. split; [reflexivity|]. apply find_call_remove.
  - unfold fail_events. cbn [mbind list_bind app run step]. rewrite Hf.
    simpl in Hlen.
    replace (maxA <=? S a)%nat with false by (symmetry; apply Nat.leb_gt; lia).
    cbn [run step calls].
    pose proof (find_call_replace (calls c) (mkCall id (S a) maxA (AwaitDelay (1000 * S a)))
                  (mkCall id a maxA AwaitHttp) Hf) as Hr.
    cbn [call_id] in Hr. rewrite Hr.
    replace (S a <? maxA)%nat with true by (symmetry; apply Nat.ltb_lt; lia).
    set (c2 := mkClient _ _ (replace_call (replace_call (calls c) _) (mkCall id (S a) maxA AwaitHttp))).
    assert (Hf2 : find_call (calls c2) id = Some (mkCall id (S a) maxA AwaitHttp)).
    { unfold c2; cbn [calls].
      apply (find_call_replace _ (mkCall id (S a) maxA AwaitHttp)
               (mkCall id (S a) maxA (AwaitDelay (1000 * S a)))).
      apply (find_call_replace (calls c) (mkCall id (S a) maxA (AwaitDelay (1000 * S a)))
               (mkCall id a maxA AwaitHttp) Hf). }
    destruct (IH c2 (S a) Hf2 ltac:(lia)) as (c' & Hrun & Hgone).
    unfold fail_events in Hrun. rewrite Hrun.
    exists c'. split; [reflexivity|exact Hgone].
Qed.

Lemma retry_tail_trace (id : nat) (e : jsstr) (es : list jsstr) :
  forall k, (1 <= k)%nat ->
  OAttempt id k :: retry_tail id k es e
  = mbind (fun j => OAttempt id j :: (if (j <? k + length es)%nat
                                     then [OSleep id (1000 * j)] else []))
          (seq k (S (length es)))
    ++ [OThrow id e].
Proof.
  induction es as [|x es IH]; intros k Hk.
  - simpl. rewrite Nat.add_0_r, Nat.ltb_irrefl. reflexivity.
  - cbn [retry_tail length]. rewrite (IH (S k)) by lia.
    cbn [seq mbind list_bind].
    replace (k <? k + S (length es))%nat with true by (symmetry; apply Nat.ltb_lt; lia).
    replace (S k + length es)%nat with (k + S (length es))%nat by lia.
    reflexivity.
Qed.

(** Claim C6: with [maxAttempts] = 3 when auto-retry is on and 1 when it is
    off, a [request] whose HTTP attempts are all rejected makes exactly
    [maxAttempts] attempts, waits [1000 * k] ms after the failed attempt
    [k] when another attempt follows, and then rejects with the last
    attempt's error; after that the call is over and no further attempt,
    wait or result belongs to it. A response that resolves, whatever its
    status code, ends the call at once: it is returned as is, with no
    further attempt. *)
Theorem request_retry_schedule (c : client) (id : nat) (es : list jsstr) (e : jsstr) :
  find_call (calls c) id = None ->
  S (length es) = (if autoRetry c then 3 else 1)%nat ->
  (exists c', run c (EvCall id true :: fail_events id es e)
              = Some (c', retry_trace id (S (length es)) e) /\
     find_call (calls c') id = None /\
     step c' (EvTimer id) = None /\
     (forall err, step c' (EvReject id err) = None) /\
     (forall r, step c' (EvResolve id r) = None)) /\
  (forall c1 a maxA r, find_call (calls c1) id = Some (mkCall id a maxA AwaitHttp) ->
     exists c2, step c1 (EvResolve id r) = Some (c2, [OReturn id r]) /\
                find_call (calls c2) id = None).
Proof.
  intros Hnone Hlen. split.
  - cbn [run step]. rewrite Hnone. cbn [negb].
    replace (0 <? (if autoRetry c then 3 else 1))%nat with true
      by (symmetry; apply Nat.ltb_lt; destruct (autoRetry c); lia).
    set (maxA := (if autoRetry c then 3 else 1)%nat) in *.
    set (c1 := mkClient (incr_requests (client_stats c)) (autoRetry c)
                 (calls c ++ [mkCall id 0 maxA AwaitHttp])).
    assert (Hf : find_call (calls c1) id = Some (mkCall id 0 maxA AwaitHttp)).
    { apply (find_call_snoc (calls c) (mkCall id 0 maxA AwaitHttp)). exact Hnone. }
    destruct (run_fail_tail id maxA e es c1 0 Hf ltac:(lia)) as (c' & Hrun & Hgone).
    rewrite Hrun. exists c'. split; [|split; [exact Hgone|]].
    + pose proof (retry_tail_trace id e es 1 ltac:(lia)) as Ht.
      cbn [Nat.add] in Ht. unfold retry_trace. rewrite <- Ht. reflexivity.
    + unfold step. rewrite Hgone. repeat split.
  - intros c1 a maxA r Hf. unfold step. rewrite Hf.
    eexists. split; [reflexivity|]. apply find_call_remove.
Qed.

(** Auto-retry on, call 7 rejected three times: attempts 1, 2, 3 with
    waits of 1000 and 2000 ms, then the third error. *)
Lemma request_retry_schedule_witness :
  find_call (calls (init true)) 7 = None /\
  S (length [js "e1"; js "e2"]) = (if autoRetry (init true) then 3 else 1)%nat /\
  run (init true) (EvCall 7 true :: fail_events 7 [js "e1"; js "e2"] (js "e3"))
  = Some (mkClient (mkStats 3 0 3 0) true [],
          [OAttempt 7 1; OSleep 7 1000; OAttempt 7 2; OSleep 7 2000; OAttempt 7 3;
           OThrow 7 (js "e3")]) /\
  retry_trace 7 3 (js "e3")
  = [OAttempt 7 1; OSleep 7 1000; OAttempt 7 2; OSleep 7 2000; OAttempt 7 3;
     OThrow 7 (js "e3")].
Proof.
  assert (H1 : find_call (calls (init true)) 7 = None) by reflexivity.
  assert (H2 : S (length [js "e1"; js "e2"]) = (if autoRetry (init true) then 3 else 1)%nat)
    by reflexivity.
  pose proof (request_retry_schedule (init true) 7 [js "e1"; js "e2"] (js "e3") H1 H2)
    as [_ _].
  split; [exact H1|]. split; [exact H2|]. split; reflexivity.
Defined.

Lemma remove_call_single (x : call) (id : nat) :
  call_id x = id -> remove_call [x] id = [].
Proof.
  intros <-. unfold remove_call. rewrite filter_cons.
  destruct (decide _) as [Hd|Hd]; [|reflexivity].
  rewrite Nat.eqb_refl in Hd. contradiction.
Qed.

Lemma serial_inv_step (c : client) (ev : event) (c' : client) (o : list output) :
  serial_inv c -> step_serial c ev = Some (c', o) -> serial_inv c'.
Proof.
  unfold serial_inv. destruct c as [[rq sc fl en] ar l]. cbn [calls client_stats].
  destruct ev as [id au|id r|id err|id|]; unfold step_serial.
  - case_bool_decide as Hl; [|discriminate]. cbn [calls] in Hl. subst l. unfold step. cbn [calls find_call].
    destruct au; cbn [negb].
    + destruct ar; cbn; intros H [= <- _]; cbn; lia.
    + intros H [= <- _]. exact H.
  - unfold step. cbn [calls client_stats].
    destruct l as [|[xid xa xm [|ms]] [|y l]]; intros H; cbn in H; try contradiction;
      cbn [find_call call_id]; try discriminate;
      destruct (Nat.eqb_spec xid id) as [E|E]; try discriminate; try (cbn; discriminate).
    intros [= <- _]. cbn [calls client_stats].
    rewrite remove_call_single by exact E. cbn.
    destruct ((200 <=? statusCode r) && (statusCode r <? 300));
      destruct (decryptionMethod r) as [[|? ?]|]; cbn; lia.
  - unfold step. cbn [calls client_stats].
    destruct l as [|[xid xa xm [|ms]] [|y l]]; intros H; cbn in H; try contradiction;
      cbn [find_call call_id]; try discriminate;
      destruct (Nat.eqb_spec xid id) as [E|E]; try discriminate; try (cbn; discriminate).
    destruct (xm <=? S xa)%nat; intros [= <- _]; cbn [calls client_stats].
    + rewrite remove_call_single by exact E. cbn. lia.
    + cbn. rewrite E, Nat.eqb_refl. cbn. lia.
  - unfold step. cbn [calls client_stats].
    destruct l as [|[xid xa xm [|ms]] [|y l]]; intros H; cbn in H; try contradiction;
      cbn [find_call call_id]; try discriminate;
      destruct (Nat.eqb_spec xid id) as [E|E]; try discriminate; try (cbn; discriminate).
    destruct (xa <? xm)%nat; [|discriminate]. intros [= <- _].
    cbn. rewrite E, Nat.eqb_refl. cbn. lia.
  - case_bool_decide as Hl; [|discriminate]. cbn [calls] in Hl. subst l.
    intros H [= <- _]. reflexivity.
Qed.

Lemma serial_inv_run (evs : list event) :
  forall c c' o, serial_inv c -> run_serial c evs = Some (c', o) -> serial_inv c'.
Proof.
  induction evs as [|ev evs IH]; intros c c' o Hc; cbn [run_serial].
  - intros [= <- _]. exact Hc.
  - destruct (step_serial c ev) as [[c1 o1]|] eqn:Hs; [|discriminate].
    destruct (run_serial c1 evs) as [[c2 o2]|] eqn:Hr; [|discriminate].
    intros [= <- _]. exact (IH c1 c2 o2 (serial_inv_step c ev c1 o1 Hc Hs) Hr).
Qed.

Lemma step_stats_monotone (c : client) (ev : event) (c' : client) (o : list output) :
  step c ev = Some (c', o) ->
  (ev = EvReset /\ client_stats c' = zero_stats) \/
  (ev <> EvReset /\ stats_le (client_stats c) (client_stats c')).
Proof.
  destruct c as [[rq sc fl en] ar l]. unfold stats_le.
  destruct ev as [id au|id r|id err|id|]; unfold step; cbn [calls client_stats].
  - destruct (find_call l id); [discriminate|]. destruct au; cbn [negb].
    + destruct ar; cbn; intros [= <- _]; right; (split; [discriminate|]); cbn; lia.
    + intros [= <- _]. right. (split; [discriminate|]). cbn. lia.
  - destruct (find_call l id) as [[? ? ? [|]]|]; try discriminate.
    intros [= <- _]. right. split; [discriminate|]. cbn.
    destruct ((200 <=? statusCode r) && (statusCode r <? 300));
      destruct (decryptionMethod r) as [[|? ?]|]; cbn; lia.
  - destruct (find_call l id) as [[? xa xm [|]]|]; try discriminate.
    destruct (xm <=? S xa)%nat; intros [= <- _]; right; (split; [discriminate|]); cbn; lia.
  - destruct (find_call l id) as [[? xa xm [|]]|]; try discriminate.
    destruct (xa <? xm)%nat; [|discriminate]. intros [= <- _].
    right. split; [discriminate|]. cbn. lia.
  - intros [= <- _]. left. split; reflexivity.
Qed.

(** Claim C9 (amended): when [request] calls do not overlap one another
    and [resetStats] is not called while a [request] is in flight, then,
    starting from a fresh client, [requests = successful + failed] holds
    whenever no call is in flight, in particular after every completed
    call. Every step of the client, overlapping or not, leaves each of
    the four counters equal or larger, except [resetStats], which sets
    all four to zero. *)
Theorem stats_invariant_serial (ar : bool) (evs : list event) (c' : client) (o : list output) :
  run_serial (init ar) evs = Some (c', o) ->
  (calls c' = [] ->
   requests (client_stats c') = (successful (client_stats c') + failed (client_stats c'))%nat) /\
  (forall c ev c1 o1, step c ev = Some (c1, o1) ->
     (ev = EvReset /\ client_stats c1 = zero_stats) \/
     (ev <> EvReset /\ stats_le (client_stats c) (client_stats c1))).
Proof.
  intros Hrun. split.
  - intros Hnil. pose proof (serial_inv_run evs (init ar) c' o eq_refl Hrun) as Hinv.
    unfold serial_inv in Hinv. rewrite Hnil in Hinv. exact Hinv.
  - exact step_stats_monotone.
Qed.

(** A rejected first attempt, a retry that succeeds, then a reset and a
    call that is not authenticated. *)
Lemma stats_invariant_serial_witness :
  run_serial (init true)
    [EvCall 1 true; EvReject 1 (js "timeout"); EvTimer 1; EvResolve 1 r200;
     EvReset; EvCall 2 false]
  = Some (mkClient zero_stats true [],
          [OAttempt 1 1; OSleep 1 1000; OAttempt 1 2; OReturn 1 r200;
           OThrow 2 not_authenticated_msg]) /\
  requests zero_stats = (successful zero_stats + failed zero_stats)%nat.
Proof.
  assert (H : run_serial (init true)
    [EvCall 1 true; EvReject 1 (js "timeout"); EvTimer 1; EvResolve 1 r200;
     EvReset; EvCall 2 false]
  = Some (mkClient zero_stats true [],
          [OAttempt 1 1; OSleep 1 1000; OAttempt 1 2; OReturn 1 r200;
           OThrow 2 not_authenticated_msg])) by reflexivity.
  split; [exact H|].
  exact (proj1 (stats_invariant_serial true _ _ _ H) eq_refl).
Defined.

(** Claim C9, counterexample: with two overlapping calls, the first
    completes while the second is in flight and [requests] is 2 against
    [successful + failed] = 1; a [resetStats] during a call leaves, once
    that call completes, [successful] = 1 with [requests] = 0. *)
Lemma stats_invariant_overlap_counterexample :
  run (init true) [EvCall 1 true; EvCall 2 true; EvResolve 1 r200]
  = Some (mkClient (mkStats 2 1 0 0) true [mkCall 2 0 3 AwaitHttp],
          [OAttempt 1 1; OAttempt 2 1; OReturn 1 r200]) /\
  run (init true) [EvCall 1 true; EvReset; EvResolve 1 r200]
  = Some (mkClient (mkStats 0 1 0 0) true [], [OAttempt 1 1; OReturn 1 r200]).
Proof. split; reflexivity. Qed.

End ClientProofs.

(** ** Copies returned by the read accessors *)

Module HeapProofs.
Import Heap HeapSpec.

Lemma alloc_spec (h : heap) (o : hobj) (h' : heap) (l' : loc) :
  alloc h o = (h', l') -> h !! l' = None /\ h' = <[l' := o]> h.
Proof.
  unfold alloc. intros [= <- <-]. split; [|reflexivity].
  apply not_elem_of_dom. apply is_fresh.
Qed.

Lemma mutate_other (h : heap) (l k : loc) (f : hobj -> hobj) :
  k <> l -> mutate h l f !! k = h !! k.
Proof.
  intros Hk. unfold mutate. destruct (h !! l); [|reflexivity].
  by rewrite lookup_insert_ne by congruence.
Qed.

Lemma mutate_all_other (fs : list (hobj -> hobj)) :
  forall (h : heap) (l k : loc), k <> l -> mutate_all h l fs !! k = h !! k.
Proof.
  induction fs as [|f fs IH]; intros h l k Hk; [reflexivity|].
  unfold mutate_all. cbn [foldl]. fold (mutate_all (mutate h l f) l fs).
  rewrite IH by exact Hk. by apply mutate_other.
Qed.

(** Claim C10: [getStats] and [getResults] return a newly allocated
    object, distinct from the client's [stats] object and from the
    scheduler's [results] array, holding the same contents; whatever
    mutations the caller then makes to the returned object or array
    (adding, removing or overwriting entries), the internal object, and
    every other object of the heap, read afterwards exactly as before
    the call. The copy is shallow: the entries of a [getResults] copy
    are the same result objects, and only the array is new. *)
Theorem read_accessors_copy (h : heap) (r : loc) (h' : heap) (l' : loc)
    (fs : list (hobj -> hobj)) :
  (getStats h r = Some (h', l') \/ getResults h r = Some (h', l')) ->
  l' <> r /\ h !! l' = None /\ h' !! l' = h !! r /\
  mutate_all h' l' fs !! r = h !! r /\
  (forall k, k <> l' -> mutate_all h' l' fs !! k = h !! k).
Proof.
  intros Hget.
  assert (Hc : exists o, h !! r = Some o /\ alloc h o = (h', l')).
  { destruct Hget as [Hg|Hg]; unfold getStats, getResults in Hg;
      destruct (h !! r) as [[props|items]|]; try discriminate;
      eexists; (split; [reflexivity|]); congruence. }
  destruct Hc as (o & Hr & Ha). destruct (alloc_spec h o h' l' Ha) as [Hfresh ->].
  assert (Hne : l' <> r) by (intros ->; congruence).
  assert (Hk : forall k, k <> l' -> mutate_all (<[l' := o]> h) l' fs !! k = h !! k).
  { intros k Hk. rewrite mutate_all_other by exact Hk. apply lookup_insert_ne. congruence. }
  split; [exact Hne|]. split; [exact Hfresh|]. split; [rewrite lookup_insert_eq; symmetry; exact Hr|].
  split; [apply Hk; congruence|exact Hk].
Qed.

(** The caller empties its copy of the counters: the client's own
    counters still read the same. *)
Lemma read_accessors_copy_witness :
  exists h' l',
    getStats stats_heap 1 = Some (h', l') /\
    mutate_all h' l' [fun _ => HObject []] !! 1%positive = stats_heap !! 1%positive.
Proof.
  exists (fst (alloc stats_heap (HObject [(js "requests", HNum 2); (js "successful", HNum 1);
                           (js "failed", HNum 1); (js "encrypted", HNum 0)]))).
  exists (snd (alloc stats_heap (HObject [(js "requests", HNum 2); (js "successful", HNum 1);
                           (js "failed", HNum 1); (js "encrypted", HNum 0)]))).
  assert (H : getStats stats_heap 1 =
    Some (fst (alloc stats_heap (HObject [(js "requests", HNum 2); (js "successful", HNum 1);
                           (js "failed", HNum 1); (js "encrypted", HNum 0)])),
          snd (alloc stats_heap (HObject [(js "requests", HNum 2); (js "successful", HNum 1);
                           (js "failed", HNum 1); (js "encrypted", HNum 0)])))) by reflexivity.
  split; [exact H|].
  exact (proj1 (proj2 (proj2 (proj2 (read_accessors_copy _ _ _ _ [fun _ => HObject []]
                                      (or_introl H)))))).
Defined.

End HeapProofs.

(** ** The scheduler: one result per iteration, and empty statistics *)

Module QuantifyProofs.
Import Quantify QuantifySpec.

Lemma iteration_body_quiet (e : env) (n : nat) (m : Z) (i : nat) (st : sched_state) :
  (forall r, invoke (onSuccess e) r = None) ->
  (forall r, invoke (onError e) r = None) ->
  (forall j, stop_during_execute e j = false /\ stop_during_delay e j = false) ->
  isRunning st = true ->
  exists st', iteration_body e n m i st = (st', None) /\
              results st' = results st ++ [result_of e i] /\ isRunning st' = true.
Proof.
  intros HS HE Hstop Hr. destruct (Hstop i) as [H1 H2].
  unfold iteration_body, result_of, on_failure.
  destruct (execute e i) as [v|msg]; [rewrite HS|rewrite HE];
    cbn [results isRunning push currentIteration delays];
    rewrite H1, Hr; cbn [negb andb];
    destruct (i <? n)%nat; cbn [andb]; rewrite ?H2;
    (eexists; split; [reflexivity|]); cbn; split; reflexivity.
Qed.

Lemma loop_quiet (e : env) (n : nat) (m : Z) (fuel : nat) :
  (forall r, invoke (onSuccess e) r = None) ->
  (forall r, invoke (onError e) r = None) ->
  (forall j, stop_during_execute e j = false /\ stop_during_delay e j = false) ->
  forall i st, isRunning st = true -> (1 <= i)%nat -> (S n <= i + fuel)%nat ->
  exists st', loop e n m fuel i st = (st', None) /\
              results st' = results st ++ map (result_of e) (seq i (S n - i)).
Proof.
  intros HS HE Hstop. induction fuel as [|f IH]; intros i st Hr Hi Hf.
  - exists st. split; [reflexivity|].
    replace (S n - i)%nat with O by lia. cbn. by rewrite app_nil_r.
  - cbn [loop]. rewrite Hr, andb_true_r.
    destruct (Nat.leb_spec i n) as [Hle|Hgt].
    + destruct (iteration_body_quiet e n m i st HS HE Hstop Hr) as (st1 & Hb & Hres & Hr1).
      rewrite Hb.
      destruct (IH (S i) st1 Hr1 ltac:(lia) ltac:(lia)) as (st2 & Hl & Hres2).
      exists st2. split; [exact Hl|].
      rewrite Hres2, Hres. replace (S n - i)%nat with (S (S n - S i)) by lia.
      cbn [seq map]. by rewrite <- app_assoc.
    + exists st. split; [reflexivity|].
      replace (S n - i)%nat with O by lia. cbn. by rewrite app_nil_r.
Qed.

Lemma filter_success_result_of (e : env) (l : list nat) :
  (length (filter (fun r => success r = true) (map (result_of e) l))
   + length (filter (fun i => exc_ok (execute e i) = false) l))%nat = length l.
Proof.
  induction l as [|i l IH]; [reflexivity|].
  cbn [map]. rewrite !filter_cons.
  assert (Hs : success (result_of e i) = exc_ok (execute e i))
    by (unfold result_of; destruct (execute e i); reflexivity).
  rewrite Hs. destruct (exc_ok (execute e i)).
  - rewrite decide_True by reflexivity. rewrite decide_False by discriminate.
    cbn [length]. lia.
  - rewrite decide_False by discriminate. rewrite decide_True by reflexivity.
    cbn [length]. lia.
Qed.

Lemma getExecutionStats_failed (rs : list execution_result) :
  failed (getExecutionStats (Some rs))
  = (Z.of_nat (length rs) - Z.of_nat (length (filter (fun r => success r = true) rs)))%Z.
Proof. destruct rs; reflexivity. Qed.

(** Claim C7 (amended): when the [onSuccess] and [onError] callbacks
    (if given) return without throwing and [stop()] is never called, the
    finished schedule holds exactly one result per iteration [1..iterations],
    in order, a success with the call's value or an error with its message,
    so [iterations] results in all; [getExecutionStats] counts as failed
    exactly the iterations whose remote call threw. *)
Theorem schedule_one_result_per_iteration (e : env) (iterations : nat) (intervalMinutes : Z) :
  (forall r, invoke (onSuccess e) r = None) ->
  (forall r, invoke (onError e) r = None) ->
  (forall i, stop_during_execute e i = false /\ stop_during_delay e i = false) ->
  results (scheduleExecutions e iterations intervalMinutes)
    = map (result_of e) (seq 1 iterations) /\
  length (results (scheduleExecutions e iterations intervalMinutes)) = iterations /\
  failed (getExecutionStats (Some (results (scheduleExecutions e iterations intervalMinutes))))
    = Z.of_nat (length (filter (fun i => exc_ok (execute e i) = false) (seq 1 iterations))).
Proof.
  intros HS HE Hstop.
  assert (Hres : results (scheduleExecutions e iterations intervalMinutes)
                 = map (result_of e) (seq 1 iterations)).
  { unfold scheduleExecutions.
    destruct (loop_quiet e iterations intervalMinutes iterations HS HE Hstop 1
                (mkSched [] 0 true []) eq_refl ltac:(lia) ltac:(lia)) as (st & Hl & Hr).
    rewrite Hl. cbn [results]. rewrite Hr. cbn [results app].
    by replace (S iterations - 1)%nat with iterations by lia. }
  split; [exact Hres|]. rewrite Hres. split; [by rewrite length_map, length_seq|].
  rewrite getExecutionStats_failed.
  pose proof (filter_success_result_of e (seq 1 iterations)) as Hc.
  rewrite length_map. lia.
Qed.

Lemma schedule_one_result_per_iteration_witness :
  length (results (scheduleExecutions fails_on_second 3 0)) = 3%nat /\
  failed (getExecutionStats (Some (results (scheduleExecutions fails_on_second 3 0)))) = 1%Z.
Proof.
  destruct (schedule_one_result_per_iteration fails_on_second 3 0
              (fun _ => eq_refl) (fun _ => eq_refl) (fun _ => conj eq_refl eq_refl))
    as (_ & Hlen & Hfail).
  split; [exact Hlen|]. rewrite Hfail. reflexivity.
Defined.

(** Claim C7, counterexample: neither run is stopped, yet a throwing
    [onSuccess] makes one iteration record two results (a success and
    then an error for the same iteration), and a throwing [onError]
    aborts the loop after the first of three iterations. *)
Lemma schedule_callback_throws_counterexample :
  map (fun r => (iteration r, success r)) (results (scheduleExecutions success_callback_throws 1 0))
    = [(1%nat, true); (1%nat, false)] /\
  map (fun r => (iteration r, success r)) (results (scheduleExecutions error_callback_throws 3 0))
    = [(1%nat, false)].
Proof. split; reflexivity. Qed.

(** Claim C8: [getExecutionStats] of a missing or empty results list is
    the all-zero record [{total: 0, successful: 0, failed: 0,
    successRate: 0, averageInterval: 0}], with no first or last
    execution; the function is total, so nothing is thrown and no
    division takes place. *)
Theorem getExecutionStats_empty :
  getExecutionStats None = mkStats 0 0 0 0%Q 0%Q None None /\
  getExecutionStats (Some []) = mkStats 0 0 0 0%Q 0%Q None None.
Proof. split; reflexivity. Qed.

End QuantifyProofs.

(** ** Further properties of [quantify.js] *)

Module QuantifyMoreProofs.
Import Quantify QuantifySpec QuantifyMoreSpec.

Lemma json_get_set_eq (fields : list (jsstr * json)) (k : jsstr) (v : json) :
  json_get (json_set fields k v) k = Some v.
Proof.
  induction fields as [|[k' v'] fs IH]; cbn.
  - by rewrite bool_decide_true.
  - destruct (bool_decide_reflect (k = k')) as [->|Hne]; cbn.
    + by rewrite bool_decide_true.
    + rewrite bool_decide_false by exact Hne. exact IH.
Qed.

Lemma json_get_set_ne (fields : list (jsstr * json)) (k k' : jsstr) (v : json) :
  k' <> k -> json_get (json_set fields k v) k' = json_get fields k'.
Proof.
  intros Hne. induction fields as [|[k0 v0] fs IH]; cbn.
  - by rewrite bool_decide_false.
  - destruct (bool_decide_reflect (k = k0)) as [->|Hk]; cbn.
    + by rewrite !(bool_decide_false (k' = k0)).
    + destruct (bool_decide (k' = k0)); [reflexivity|exact IH].
Qed.

Section Retry.
Variables (string_gt0 : jsstr -> bool) (array_gt0 : list json -> bool).
Variables (exec : nat -> exc (option json)) (maxRetries retryDelay : Z).

Lemma retry_loop_all_fail (fuel a : nat) (lastError : option jsstr) :
  (1 <= a)%nat -> (a + fuel = S (Z.to_nat maxRetries))%nat ->
  (forall j, (a <= j <= Z.to_nat maxRetries)%nat -> exc_ok (exec j) = false) ->
  retry_loop string_gt0 array_gt0 exec maxRetries retryDelay fuel a lastError
  = (flat_map (fun j => RAttempt j :: (if Z.of_nat j <? maxRetries
                                       then [RSleep (retryDelay * Z.of_nat j)] else []))
       (seq a fuel),
     Throw (retry_failure maxRetries
              (match fuel with O => lastError | S _ => throw_msg (exec (a + fuel - 1)) end))).
Proof.
  revert a lastError. induction fuel as [|f IH]; intros a le Ha Hf Hfail; [reflexivity|].
  cbn [retry_loop]. rewrite (proj2 (Z.leb_le _ _)) by lia.
  pose proof (Hfail a ltac:(lia)) as Hx.
  destruct (exec a) as [r|m] eqn:Ea; [discriminate|].
  rewrite (IH (S a) (Some m) ltac:(lia) ltac:(lia) ltac:(intros j Hj; apply Hfail; lia)).
  cbn [seq flat_map]. f_equal.
  destruct f as [|f']; cbn [throw_msg].
  - by replace (a + 1 - 1)%nat with a by lia; rewrite Ea.
  - by replace (S a + S f' - 1)%nat with (a + S (S f') - 1)%nat by lia.
Qed.


End Retry.



(** Extra X2: if the remote call fails at every attempt [1..maxRetries],
    [executeWithRetry] calls it exactly at those attempts, waits
    [retryDelay * j] ms after each one but the last, and throws
    ["Quantify execution failed after <maxRetries> attempts: <m>"] where
    [<m>] is the message of the last failure, or ["undefined"] when
    [maxRetries <= 0] and nothing was attempted. *)
Theorem executeWithRetry_all_fail (string_gt0 : jsstr -> bool) (array_gt0 : list json -> bool)
    (exec : nat -> exc (option json)) (maxRetries retryDelay : Z) :
  (forall j, (1 <= j <= Z.to_nat maxRetries)%nat -> exc_ok (exec j) = false) ->
  executeWithRetry string_gt0 array_gt0 exec maxRetries retryDelay
  = (all_failed_trace maxRetries retryDelay,
     Throw (js "Quantify execution failed after " ++ num_to_string maxRetries ++ js " attempts: " ++
            match Z.to_nat maxRetries with
            | O => js "undefined"
            | S _ => match exec (Z.to_nat maxRetries) with Throw m => m | Ok _ => js "undefined" end
            end)).
Proof.
  intros Hfail. unfold executeWithRetry, all_failed_trace.
  rewrite (retry_loop_all_fail string_gt0 array_gt0 exec maxRetries retryDelay
             (Z.to_nat maxRetries) 1 None ltac:(lia) ltac:(lia) Hfail).
  unfold retry_failure. f_equal.
  destruct (Z.to_nat maxRetries) as [|n] eqn:En; [reflexivity|].
  replace (1 + S n - 1)%nat with (S n) by lia.
  pose proof (Hfail (S n) ltac:(lia)) as Hx.
  destruct (exec (S n)); [discriminate|reflexivity].
Qed.

Lemma executeWithRetry_all_fail_witness :
  executeWithRetry (fun _ => false) (fun _ => false) flaky_execute 2 500
  = ([RAttempt 1; RSleep 500; RAttempt 2],
     Throw (js "Quantify execution failed after 2 attempts: Request failed: ECONNRESET")) /\
  executeWithRetry (fun _ => false) (fun _ => false) flaky_execute 0 500
  = ([], Throw (js "Quantify execution failed after 0 attempts: undefined")).
Proof.
  split.
  - rewrite (executeWithRetry_all_fail (fun _ => false) (fun _ => false) flaky_execute 2 500
               ltac:(intros j Hj; unfold flaky_execute;
                     rewrite (proj2 (Nat.ltb_lt j 3)) by (cbn in Hj; lia); reflexivity)).
    vm_compute. reflexivity.
  - rewrite (executeWithRetry_all_fail (fun _ => false) (fun _ => false) flaky_execute 0 500
               ltac:(intros j Hj; cbn in Hj; lia)).
    vm_compute. reflexivity.
Defined.

(** Extra X3: [getStatus] reports [available: false] and
    [status: 'error'] exactly when the remote call throws or returns
    [null] or [undefined] (reading [result.hasTip] then throws); for any
    other result it reports [available: true] and a status other than
    ['error']. *)
Theorem getStatus_error_cases (o : exc (option json)) (now : jsstr) :
  let failure := match o with Throw _ | Ok None | Ok (Some JSNull) => true | _ => false end in
  json_get (getStatus o now) (js "available") = Some (JSBool (negb failure)) /\
  (json_get (getStatus o now) (js "status") = Some (JSStr (js "error")) <-> failure = true).
Proof.
  intros failure. subst failure.
  destruct o as [[[| | | | |]|]|m]; vm_compute;
    try (destruct (match _ with Some _ => _ | None => _ end));
    (split; [reflexivity|split]); try reflexivity; try discriminate.
Qed.

End QuantifyMoreProofs.

Module QuantifyStatsProofs.
Import Quantify QuantifySpec QuantifyMoreSpec.

Lemma last_default {A} (x d d' : A) (l : list A) : List.last (x :: l) d = List.last (x :: l) d'.
Proof.
  revert x. induction l as [|y l IH]; intros x; [reflexivity|].
  change (List.last (y :: l) d = List.last (y :: l) d'). apply IH.
Qed.

Lemma intervals_sum (a : Z) (x : Z) (rest : list Z) :
  foldl Z.add a (intervals (x :: rest)) = (a + (List.last (x :: rest) x - x))%Z.
Proof.
  revert a x. induction rest as [|y rest IH]; intros a x.
  - cbn. lia.
  - change (foldl Z.add (a + (y - x)) (intervals (y :: rest))
            = (a + (List.last (y :: rest) x - x))%Z).
    rewrite IH, (last_default y y x). lia.
Qed.

Lemma intervals_length (ts : list Z) : length (intervals ts) = pred (length ts).
Proof.
  induction ts as [|a ts IH]; [reflexivity|]. destruct ts as [|b ts]; [reflexivity|].
  change (S (length (intervals (b :: ts))) = pred (length (a :: b :: ts))).
  rewrite IH. reflexivity.
Qed.

Lemma js_round_bounds (q : Q) (lo hi : Z) :
  (inject_Z lo <= q <= inject_Z hi)%Q -> (lo <= js_round q <= hi)%Z.
Proof.
  intros [Hl Hh]. unfold js_round. split.
  - apply Qfloor_resp_le in Hl. rewrite Qfloor_Z in Hl.
    pose proof (Qfloor_resp_le q (q + (1 # 2))%Q) as H.
    assert (Hq : (q <= q + (1 # 2))%Q).
    { rewrite <- (Qplus_0_r q) at 1. apply Qplus_le_r. discriminate. }
    specialize (H Hq). lia.
  - assert (Hq : (q + (1 # 2) < inject_Z (hi + 1))%Q).
    { rewrite inject_Z_plus, (Qplus_comm q), (Qplus_comm (inject_Z hi)).
      apply Qplus_lt_le_compat; [reflexivity|exact Hh]. }
    pose proof (Qfloor_le (q + (1 # 2))%Q) as H1.
    assert (H2 : (inject_Z (Qfloor (q + (1 # 2))) < inject_Z (hi + 1))%Q)
      by (eapply Qle_lt_trans; eassumption).
    rewrite <- Zlt_Qlt in H2. lia.
Qed.

(** Extra X5: [successRate] always lies between 0 and 100 (a percentage
    rounded to two decimals), whatever the results list. *)
Theorem getExecutionStats_successRate_bounds (results : option (list execution_result)) :
  (0 <= successRate (getExecutionStats results) <= 100)%Q.
Proof.
  destruct results as [[|r rest]|]; cbn [getExecutionStats successRate];
    [split; discriminate| |split; discriminate].
  set (rs := r :: rest).
  set (n := length rs). set (k := length (filter (fun x => success x = true) rs)).
  assert (Hk : (k <= n)%nat) by (subst k n; apply length_filter).
  assert (Hn : (0 < n)%nat) by (subst n rs; cbn; lia).
  assert (Hpos : (inject_Z 0 < inject_Z (Z.of_nat n))%Q) by (rewrite <- Zlt_Qlt; lia).
  set (x := (inject_Z (Z.of_nat k) / inject_Z (Z.of_nat n))%Q).
  assert (Hx : (0 <= x <= 1)%Q).
  { split.
    - apply Qle_shift_div_l; [exact Hpos|]. rewrite Qmult_0_l.
      change 0%Q with (inject_Z 0). rewrite <- Zle_Qle. lia.
    - apply Qle_shift_div_r; [exact Hpos|]. rewrite Qmult_1_l.
      rewrite <- Zle_Qle. lia. }
  assert (Hr : (inject_Z 0 <= x * 100 * 100 <= inject_Z 10000)%Q)
    by (change (inject_Z 0) with 0%Q; change (inject_Z 10000) with 10000%Q; clearbody x; lra).
  pose proof (js_round_bounds _ 0 10000 Hr) as [H0 H1].
  rewrite Zle_Qle in H0, H1.
  generalize dependent (js_round (x * 100 * 100)). intros j H0 H1.
  change (inject_Z 0) with 0%Q in H0. change (inject_Z 10000) with 10000%Q in H1.
  generalize dependent (inject_Z j). intros y H0 H1.
  unfold Qdiv. change (/ 100)%Q with (1 # 100)%Q. lra.
Qed.

(** Extra X6: for two or more results, [averageInterval] is the span
    between the first and the last timestamp divided by the number of
    gaps ([results.length - 1]), converted to seconds and rounded: the
    individual gaps telescope. *)
Theorem getExecutionStats_averageInterval (first last : execution_result)
    (mid : list execution_result) :
  averageInterval (getExecutionStats (Some (first :: mid ++ [last])))
  = inject_Z (js_round (inject_Z (timestamp last - timestamp first)
                        / inject_Z (Z.of_nat (S (length mid))) / 1000)).
Proof.
  cbn [getExecutionStats averageInterval].
  rewrite (proj2 (Nat.ltb_lt _ _)) by (cbn [length]; rewrite length_app; cbn; lia).
  rewrite intervals_length. cbn [map].
  rewrite intervals_sum, map_app. cbn [map].
  rewrite app_comm_cons, List.last_last, length_app, length_cons, length_map.
  assert (E : Init.Nat.pred (S (length mid) + length [timestamp last]) = S (length mid)) by (cbn; lia).
  rewrite E, Z.add_0_l. reflexivity.
Qed.

End QuantifyStatsProofs.

Module QuantifyScheduleProofs.
Import Quantify QuantifySpec QuantifyMoreSpec.

Section Quiet.
Variables (e : env) (n : nat) (m : Z).
Hypothesis HS : forall r, invoke (onSuccess e) r = None.
Hypothesis HE : forall r, invoke (onError e) r = None.

Lemma iteration_continue (i : nat) (st : sched_state) :
  stop_during_execute e i = false -> isRunning st = true ->
  iteration_body e n m i st
  = (mkSched (results st ++ [result_of e i]) i
       (negb ((i <? n)%nat && stop_during_delay e i))
       (delays st ++ (if (i <? n)%nat then [m * 60 * 1000] else [])), None).
Proof.
  intros H1 Hr. unfold iteration_body, result_of, on_failure.
  destruct (execute e i); [rewrite HS|rewrite HE];
    cbn [results isRunning push currentIteration delays]; rewrite H1, Hr;
    destruct (i <? n)%nat; cbn; rewrite ?app_nil_r; reflexivity.
Qed.

Lemma iteration_stopped (i : nat) (st : sched_state) :
  stop_during_execute e i = true ->
  iteration_body e n m i st
  = (mkSched (results st ++ [result_of e i]) i false (delays st), None).
Proof.
  intros H1. unfold iteration_body, result_of, on_failure.
  destruct (execute e i); [rewrite HS|rewrite HE];
    cbn [results isRunning push currentIteration delays]; rewrite H1, andb_false_r;
    cbn; rewrite andb_false_r; reflexivity.
Qed.

Lemma loop_unstopped (fuel i : nat) (st : sched_state) :
  isRunning st = true -> (1 <= i)%nat -> (S n <= i + fuel)%nat ->
  (forall j, (i <= j <= n)%nat -> stop_during_execute e j = false /\ stop_during_delay e j = false) ->
  exists st', loop e n m fuel i st = (st', None) /\
    results st' = results st ++ map (result_of e) (seq i (S n - i)) /\
    delays st' = delays st ++ repeat (m * 60 * 1000) (n - i).
Proof.
  revert i st. induction fuel as [|f IH]; intros i st Hr Hi Hf Hstop.
  - exists st. replace (S n - i)%nat with O by lia. replace (n - i)%nat with O by lia.
    cbn. rewrite !app_nil_r. auto.
  - cbn [loop]. rewrite Hr, andb_true_r.
    destruct (Nat.leb_spec i n) as [Hle|Hgt].
    + destruct (Hstop i ltac:(lia)) as [H1 H2].
      rewrite (iteration_continue i st H1 Hr).
      destruct (IH (S i) (mkSched (results st ++ [result_of e i]) i
                            (negb ((i <? n)%nat && stop_during_delay e i))
                            (delays st ++ (if (i <? n)%nat then [m * 60 * 1000] else [])))
                  ltac:(cbn [isRunning]; rewrite H2, andb_false_r; reflexivity) ltac:(lia) ltac:(lia)
                  ltac:(intros j Hj; apply Hstop; lia)) as (st' & Hl & Hres & Hdel).
      exists st'. split; [exact Hl|]. cbn [results delays] in Hres, Hdel.
      rewrite Hres, Hdel, <- !app_assoc.
      replace (S n - i)%nat with (S (S n - S i)) by lia.
      split; [reflexivity|]. f_equal.
      destruct (Nat.ltb_spec i n).
      * replace (n - i)%nat with (S (n - S i)) by lia. reflexivity.
      * replace (n - i)%nat with O by lia. replace (n - S i)%nat with O by lia. reflexivity.
    + exists st. replace (S n - i)%nat with O by lia. replace (n - i)%nat with O by lia.
      cbn. rewrite !app_nil_r. auto.
Qed.

Lemma loop_stopped (fuel i k : nat) (st : sched_state) :
  isRunning st = true -> (i <= k <= n)%nat -> (k < i + fuel)%nat ->
  (forall j, (i <= j < k)%nat -> stop_during_execute e j = false /\ stop_during_delay e j = false) ->
  stop_during_execute e k = true ->
  exists st', loop e n m fuel i st = (st', None) /\
    results st' = results st ++ map (result_of e) (seq i (S k - i)) /\
    delays st' = delays st ++ repeat (m * 60 * 1000) (k - i) /\
    isRunning st' = false.
Proof.
  revert i st. induction fuel as [|f IH]; intros i st Hr Hik Hf Hstop Hk; [lia|].
  cbn [loop]. rewrite Hr, andb_true_r, (proj2 (Nat.leb_le i n)) by lia.
  destruct (Nat.eq_dec i k) as [->|Hne].
  - rewrite (iteration_stopped k st Hk).
    exists (mkSched (results st ++ [result_of e k]) k false (delays st)).
    destruct f; cbn [loop isRunning]; rewrite ?andb_false_r;
      replace (S k - k)%nat with 1%nat by lia; replace (k - k)%nat with O by lia;
      cbn; rewrite ?app_nil_r; auto.
  - destruct (Hstop i ltac:(lia)) as [H1 H2].
    rewrite (iteration_continue i st H1 Hr), (proj2 (Nat.ltb_lt i n)) by lia.
    destruct (IH (S i) (mkSched (results st ++ [result_of e i]) i
                          (negb (true && stop_during_delay e i))
                          (delays st ++ [m * 60 * 1000]))
                ltac:(cbn [isRunning andb]; rewrite H2; reflexivity) ltac:(lia) ltac:(lia)
                ltac:(intros j Hj; apply Hstop; lia) Hk) as (st' & Hl & Hres & Hdel & Hr').
    exists st'. split; [exact Hl|]. cbn [results delays] in Hres, Hdel.
    rewrite Hres, Hdel, <- !app_assoc.
    replace (S k - i)%nat with (S (S k - S i)) by lia.
    replace (k - i)%nat with (S (k - S i)) by lia. auto.
Qed.

End Quiet.

(** Extra X7: when the callbacks do not throw and [stop()] is never
    called, [scheduleExecutions] waits [intervalMinutes * 60 * 1000] ms
    between consecutive iterations and not after the last one
    ([iterations - 1] waits), and leaves the scheduler stopped with
    [currentIteration] reset to 0. *)
Theorem schedule_waits_between_iterations (e : env) (iterations : nat) (intervalMinutes : Z) :
  (forall r, invoke (onSuccess e) r = None) ->
  (forall r, invoke (onError e) r = None) ->
  (forall i, stop_during_execute e i = false /\ stop_during_delay e i = false) ->
  let st := scheduleExecutions e iterations intervalMinutes in
  delays st = repeat (intervalMinutes * 60 * 1000) (iterations - 1) /\
  isRunning st = false /\ currentIteration st = 0%nat.
Proof.
  intros HS HE Hstop st. subst st. unfold scheduleExecutions.
  destruct (loop_unstopped e iterations intervalMinutes HS HE iterations 1 (mkSched [] 0 true [])
              eq_refl ltac:(lia) ltac:(lia) ltac:(intros j _; apply Hstop))
    as (st' & Hl & _ & Hdel).
  rewrite Hl. cbn [delays isRunning currentIteration]. rewrite Hdel. auto.
Qed.

Lemma schedule_waits_between_iterations_witness :
  delays (scheduleExecutions fails_on_second 3 2) = [120000; 120000]%Z.
Proof.
  destruct (schedule_waits_between_iterations fails_on_second 3 2
              (fun _ => eq_refl) (fun _ => eq_refl) (fun _ => conj eq_refl eq_refl))
    as [Hd _].
  rewrite Hd. reflexivity.
Defined.

(** Extra X8: when the callbacks do not throw and [stop()] is first
    called while iteration [k] runs ([1 <= k <= iterations]), the
    schedule records exactly the results of iterations [1..k], waits
    only between them, runs no later iteration, and ends stopped with
    [currentIteration] reset to 0. *)
Theorem schedule_stop_during_iteration (e : env) (iterations k : nat) (intervalMinutes : Z) :
  (forall r, invoke (onSuccess e) r = None) ->
  (forall r, invoke (onError e) r = None) ->
  (1 <= k <= iterations)%nat ->
  (forall j, (j < k)%nat -> stop_during_execute e j = false /\ stop_during_delay e j = false) ->
  stop_during_execute e k = true ->
  let st := scheduleExecutions e iterations intervalMinutes in
  results st = map (result_of e) (seq 1 k) /\
  delays st = repeat (intervalMinutes * 60 * 1000) (k - 1) /\
  isRunning st = false /\ currentIteration st = 0%nat.
Proof.
  intros HS HE Hk Hstop Hsk st. subst st. unfold scheduleExecutions.
  destruct (loop_stopped e iterations intervalMinutes HS HE iterations 1 k (mkSched [] 0 true [])
              eq_refl ltac:(lia) ltac:(lia) ltac:(intros j Hj; apply Hstop; lia) Hsk)
    as (st' & Hl & Hres & Hdel & _).
  rewrite Hl. cbn [results delays isRunning currentIteration]. rewrite Hres, Hdel.
  replace (S k - 1)%nat with k by lia. auto.
Qed.

Lemma schedule_stop_during_iteration_witness :
  map iteration (results (scheduleExecutions stopped_on_second 5 1)) = [1; 2]%nat /\
  delays (scheduleExecutions stopped_on_second 5 1) = [60000]%Z.
Proof.
  destruct (schedule_stop_during_iteration stopped_on_second 5 2 1
              (fun _ => eq_refl) (fun _ => eq_refl) ltac:(lia)
              ltac:(intros j Hj; cbn; rewrite (proj2 (Nat.eqb_neq j 2)) by lia; split; reflexivity)
              eq_refl) as (Hr & Hd & _).
  rewrite Hr, Hd. split; reflexivity.
Defined.

End QuantifyScheduleProofs.

(** ** Further properties of [CoinPlexClient.request] *)

Module ClientMoreProofs.
Import Client ClientSpec ClientMoreSpec.

Lemma count_http_perm (l l' : list call) : l ≡ₚ l' -> count_http l = count_http l'.
Proof. intros H. unfold count_http. apply Permutation_length. by rewrite H. Qed.

Lemma count_http_cons (x : call) (l : list call) :
  count_http (x :: l) = ((if in_flight x then 1 else 0) + count_http l)%nat.
Proof.
  unfold count_http. rewrite filter_cons.
  destruct (in_flight x); [rewrite decide_True by reflexivity|rewrite decide_False by discriminate];
    reflexivity.
Qed.

Lemma count_http_app (l l' : list call) : count_http (l ++ l') = (count_http l + count_http l')%nat.
Proof. unfold count_http. by rewrite filter_app, length_app. Qed.

Lemma find_call_none_notin (l : list call) (id : nat) :
  find_call l id = None -> id ∉ map call_id l.
Proof.
  induction l as [|z l IH]; cbn; [intros _; apply not_elem_of_nil|].
  destruct (Nat.eqb_spec (call_id z) id) as [Hz|Hz]; [discriminate|].
  intros Hf. apply not_elem_of_cons. split; [congruence|exact (IH Hf)].
Qed.

Lemma remove_call_cons (z : call) (l : list call) (id : nat) :
  remove_call (z :: l) id
  = if (call_id z =? id)%nat then remove_call l id else z :: remove_call l id.
Proof.
  unfold remove_call. rewrite filter_cons.
  destruct (Nat.eqb_spec (call_id z) id);
    destruct (decide _) as [Hd|Hd]; simpl in Hd; try contradiction; reflexivity.
Qed.

Lemma remove_call_notin (l : list call) (id : nat) : id ∉ map call_id l -> remove_call l id = l.
Proof.
  induction l as [|z l IH]; [reflexivity|]. cbn [map]. intros Hn.
  apply not_elem_of_cons in Hn as [Hne Hn]. rewrite remove_call_cons.
  destruct (Nat.eqb_spec (call_id z) id); [congruence|]. by rewrite (IH Hn).
Qed.

Lemma replace_call_notin (l : list call) (y : call) :
  call_id y ∉ map call_id l -> replace_call l y = l.
Proof.
  unfold replace_call. induction l as [|z l IH]; [reflexivity|]. cbn [map]. intros Hn.
  apply not_elem_of_cons in Hn as [Hne Hn].
  destruct (Nat.eqb_spec (call_id z) (call_id y)); [congruence|]. by rewrite (IH Hn).
Qed.

Lemma find_call_perm (l : list call) (id : nat) (x : call) :
  NoDup (map call_id l) -> find_call l id = Some x -> l ≡ₚ x :: remove_call l id.
Proof.
  induction l as [|z l IH]; cbn [find_call map]; [discriminate|].
  intros Hnd. apply NoDup_cons in Hnd as [Hz Hnd]. rewrite remove_call_cons.
  destruct (Nat.eqb_spec (call_id z) id) as [Hid|Hid]; intros Hf.
  - injection Hf as <-. subst id. by rewrite remove_call_notin.
  - rewrite (IH Hnd Hf) at 1. constructor.
Qed.

Lemma replace_call_perm (l : list call) (x y : call) :
  NoDup (map call_id l) -> find_call l (call_id y) = Some x ->
  replace_call l y ≡ₚ y :: remove_call l (call_id y).
Proof.
  induction l as [|z l IH]; cbn [find_call map]; [discriminate|].
  intros Hnd. apply NoDup_cons in Hnd as [Hz Hnd]. rewrite remove_call_cons.
  unfold replace_call; cbn [map]; fold (replace_call l y).
  destruct (Nat.eqb_spec (call_id z) (call_id y)) as [Hid|Hid]; intros Hf.
  - rewrite Hid in Hz. by rewrite replace_call_notin, remove_call_notin.
  - rewrite (IH Hnd Hf). constructor.
Qed.

Lemma counters_inv_take (c : client) (id : nat) (x : call) :
  NoDup (map call_id (calls c)) -> find_call (calls c) id = Some x ->
  NoDup (map call_id (remove_call (calls c) id)) /\
  count_http (calls c) = ((if in_flight x then 1 else 0) + count_http (remove_call (calls c) id))%nat /\
  call_id x = id /\ id ∉ map call_id (remove_call (calls c) id).
Proof.
  intros Hnd Hf. pose proof (find_call_perm _ _ _ Hnd Hf) as Hp.
  pose proof (ClientProofs.find_call_some_id _ _ _ Hf) as Hid.
  rewrite (count_http_perm _ _ Hp), count_http_cons.
  apply (Permutation_map call_id) in Hp. rewrite Hp in Hnd. cbn [map] in Hnd.
  apply NoDup_cons in Hnd as [Hn Hnd]. rewrite Hid in Hn. auto.
Qed.

Lemma counters_inv_step (c : client) (ev : event) (c' : client) (o : list output) :
  is_reset ev = false -> counters_inv c -> step c ev = Some (c', o) -> counters_inv c'.
Proof.
  intros Hr (Hnd & Heq & Hle) Hs.
  destruct ev as [id auth|id r|id err|id|]; cbn [step] in Hs; [| | | |discriminate].
  - destruct (find_call (calls c) id) eqn:Hf; [discriminate|].
    destruct auth; cbn [negb] in Hs.
    + destruct (autoRetry c); cbn in Hs; injection Hs as <- <-; unfold counters_inv;
        cbn [calls client_stats incr_requests requests successful failed encrypted];
        rewrite count_http_app, count_http_cons; cbn [in_flight at_phase];
        change (count_http []) with 0%nat;
        (split; [|split]); try lia;
        rewrite map_app; apply NoDup_app; (split; [exact Hnd|split; [|apply NoDup_singleton]]);
        intros y Hy Hy'; apply list_elem_of_singleton in Hy'; subst y;
        exact (find_call_none_notin _ _ Hf Hy).
    + injection Hs as <- <-. repeat split; assumption.
  - destruct (find_call (calls c) id) as [[i a m [|ms]]|] eqn:Hf; try discriminate.
    injection Hs as <- <-.
    destruct (counters_inv_take c id _ Hnd Hf) as (Hnd' & Hc & _ & _).
    cbn [in_flight at_phase] in Hc.
    split; [exact Hnd'|]. cbn [calls client_stats].
    destruct (_ && _), (decryptionMethod r) as [[|? ?]|];
      cbn [incr_successful incr_failed incr_encrypted requests successful failed encrypted]; lia.
  - destruct (find_call (calls c) id) as [[i a m [|ms]]|] eqn:Hf; try discriminate.
    destruct (counters_inv_take c id _ Hnd Hf) as (Hnd' & Hc & Hid & Hn).
    cbn [in_flight at_phase call_id] in Hc, Hid. subst i.
    remember (1000 * S a)%nat as w eqn:Hw; clear Hw.
    destruct (m <=? S a)%nat; injection Hs as <- <-.
    + split; [exact Hnd'|]. cbn [calls client_stats incr_failed requests successful failed encrypted].
      lia.
    + assert (Hp := replace_call_perm (calls c) _ (mkCall id (S a) m (AwaitDelay w)) Hnd Hf).
      cbn [call_id] in Hp. unfold counters_inv.
      cbn [calls client_stats incr_failed requests successful failed encrypted].
            rewrite (count_http_perm _ _ Hp), count_http_cons. cbn [in_flight at_phase].
      apply (Permutation_map call_id) in Hp. rewrite Hp. cbn [map call_id].
      split; [apply NoDup_cons; split; assumption|]. lia.
  - destruct (find_call (calls c) id) as [[i a m [|ms]]|] eqn:Hf; try discriminate.
    destruct (counters_inv_take c id _ Hnd Hf) as (Hnd' & Hc & Hid & Hn).
    cbn [in_flight at_phase call_id] in Hc, Hid. subst i.
    destruct (a <? m)%nat; [|discriminate]. injection Hs as <- <-.
    assert (Hp := replace_call_perm (calls c) _ (mkCall id a m AwaitHttp) Hnd Hf).
    cbn [call_id] in Hp. unfold counters_inv.
    cbn [calls client_stats incr_requests requests successful failed encrypted].
    rewrite (count_http_perm _ _ Hp), count_http_cons. cbn [in_flight at_phase].
    apply (Permutation_map call_id) in Hp. rewrite Hp. cbn [map call_id].
    split; [apply NoDup_cons; split; assumption|]. lia.
Qed.

Lemma counters_inv_run (evs : list event) :
  forall c c' o, Forall (fun ev => is_reset ev = false) evs -> counters_inv c ->
  run c evs = Some (c', o) -> counters_inv c'.
Proof.
  induction evs as [|ev evs IH]; intros c c' o Hall Hinv Hrun; cbn [run] in Hrun.
  - by injection Hrun as <- _.
  - inversion Hall as [|? ? Hev Hall']; subst.
    destruct (step c ev) as [[c1 o1]|] eqn:Hs; [|discriminate].
    destruct (run c1 evs) as [[c2 o2]|] eqn:Hr; [|discriminate].
    injection Hrun as <- _.
    exact (IH c1 c2 o2 Hall' (counters_inv_step c ev c1 o1 Hev Hinv Hs) Hr).
Qed.

(** Extra X9: as long as [resetStats] is not called, however the
    [request] calls of a client overlap, [stats.requests] equals
    [stats.successful + stats.failed] plus the number of HTTP attempts
    still in flight (so the two sides agree whenever no attempt is in
    flight), and [stats.encrypted] never exceeds
    [stats.successful + stats.failed]. *)
Theorem stats_balance_without_reset (ar : bool) (evs : list event) (c' : client) (o : list output) :
  Forall (fun ev => is_reset ev = false) evs ->
  run (init ar) evs = Some (c', o) ->
  requests (client_stats c')
    = (successful (client_stats c') + failed (client_stats c') + count_http (calls c'))%nat /\
  (encrypted (client_stats c') <= successful (client_stats c') + failed (client_stats c'))%nat.
Proof.
  intros Hall Hrun.
  assert (Hinit : counters_inv (init ar)) by (repeat split; [constructor|..]; cbn; lia).
  destruct (counters_inv_run evs (init ar) c' o Hall Hinit Hrun) as (_ & H1 & H2). auto.
Qed.

Lemma stats_balance_without_reset_witness :
  requests (client_stats (mkClient (mkStats 2 1 0 0) true [mkCall 2 0 3 AwaitHttp])) = 2%nat /\
  (successful (client_stats (mkClient (mkStats 2 1 0 0) true [mkCall 2 0 3 AwaitHttp]))
   + failed (client_stats (mkClient (mkStats 2 1 0 0) true [mkCall 2 0 3 AwaitHttp]))
   + count_http (calls (mkClient (mkStats 2 1 0 0) true [mkCall 2 0 3 AwaitHttp])))%nat = 2%nat.
Proof.
  destruct (stats_balance_without_reset true [EvCall 1 true; EvCall 2 true; EvResolve 1 r200]
              (mkClient (mkStats 2 1 0 0) true [mkCall 2 0 3 AwaitHttp])
              [OAttempt 1 1; OAttempt 2 1; OReturn 1 r200]
              ltac:(repeat constructor) eq_refl) as [H _].
  split; [reflexivity|]. rewrite <- H. reflexivity.
Defined.

End ClientMoreProofs.

(** ** Configuration, headers and the response handler of [CoinPlexClient] *)

Module ClientConfigProofs.
Import ClientConfig.

Lemma props_lookup_set_eq (o : props) (k : jsstr) (v : option json) :
  props_lookup (props_set o k v) k = Some v.
Proof.
  induction o as [|[k' v'] o IH]; cbn.
  - by rewrite bool_decide_true.
  - destruct (bool_decide_reflect (k = k')) as [->|Hne]; cbn.
    + by rewrite bool_decide_true.
    + rewrite bool_decide_false by exact Hne. exact IH.
Qed.

Lemma props_lookup_set_ne (o : props) (k k' : jsstr) (v : option json) :
  k' <> k -> props_lookup (props_set o k v) k' = props_lookup o k'.
Proof.
  intros Hne. induction o as [|[k0 v0] o IH]; cbn.
  - by rewrite bool_decide_false.
  - destruct (bool_decide_reflect (k = k0)) as [->|Hk]; cbn.
    + by rewrite !(bool_decide_false (k' = k0)).
    + destruct (bool_decide (k' = k0)); [reflexivity|exact IH].
Qed.

Lemma props_lookup_set (o : props) (k k' : jsstr) (v : option json) :
  props_lookup (props_set o k v) k' = if bool_decide (k' = k) then Some v else props_lookup o k'.
Proof.
  destruct (bool_decide_reflect (k' = k)) as [->|Hne];
    [apply props_lookup_set_eq|by apply props_lookup_set_ne].
Qed.

Lemma props_lookup_app (o o' : props) (k : jsstr) :
  props_lookup (o ++ o') k
  = match props_lookup o k with Some v => Some v | None => props_lookup o' k end.
Proof.
  induction o as [|[k' v'] o IH]; [reflexivity|]. cbn.
  destruct (bool_decide (k = k')); [reflexivity|exact IH].
Qed.

(** Spreading [src] into [acc]: the last property of [src] named [k]
    wins, and [acc]'s value stays when [src] has none. *)
Lemma props_lookup_assign (acc src : props) (k : jsstr) :
  props_lookup (props_assign acc src) k
  = match props_lookup (reverse src) k with Some v => Some v | None => props_lookup acc k end.
Proof.
  revert acc. induction src as [|[k1 v1] src IH]; intros acc; [reflexivity|].
  unfold props_assign. cbn [foldl fst snd]. fold (props_assign (props_set acc k1 v1) src).
  rewrite IH, reverse_cons, props_lookup_app, props_lookup_set. cbn.
  destruct (props_lookup (reverse src) k); [reflexivity|].
  destruct (bool_decide (k = k1)); reflexivity.
Qed.

Lemma first_missing_none (get : jsstr -> option json) (fields : list jsstr) :
  first_missing get fields = None <-> (forall f, f ∈ fields -> opt_truthy (get f) = true).
Proof.
  induction fields as [|f fs IH]; cbn.
  - split; [intros _ f Hf; apply not_elem_of_nil in Hf; contradiction|reflexivity].
  - destruct (opt_truthy (get f)) eqn:Hf.
    + rewrite IH. split.
      * intros H g Hg. apply elem_of_cons in Hg as [->|Hg]; [exact Hf|exact (H g Hg)].
      * intros H g Hg. apply H. by apply elem_of_cons; right.
    + split; [discriminate|]. intros H. rewrite (H f) in Hf; [discriminate|].
      apply elem_of_cons; left; reflexivity.
Qed.

(** Extra X10: the constructor's defaults are overridden by every
    property the caller's config carries, even one set to [undefined]:
    a config without [autoRetry] gives [request] 3 attempts, and one
    whose (last) [autoRetry] property is falsy, [undefined] included,
    gives a single attempt. *)
Theorem client_config_maxAttempts (config : props) :
  maxAttempts (client_config config)
  = match props_lookup (reverse config) (js "autoRetry") with
    | None => 3%nat
    | Some v => if opt_truthy v then 3%nat else 1%nat
    end.
Proof.
  unfold maxAttempts, client_config, props_get. rewrite props_lookup_assign.
  destruct (props_lookup (reverse config) (js "autoRetry")); reflexivity.
Qed.

(** Extra X11: [_validateConfig] accepts a configuration exactly when
    [apiKey], [apiSecret] and [credentials] are truthy and so are
    [credentials.prefix], [credentials.account] and [credentials.code];
    a missing configuration is rejected with "Configuration object is
    required". *)
Theorem validateConfig_accepts (config : option props) :
  _validateConfig config = Ok tt <->
  exists c, config = Some c /\
    (forall f, f ∈ required_fields -> opt_truthy (props_get c f) = true) /\
    (forall f, f ∈ credential_fields ->
       opt_truthy (member (props_get c (js "credentials")) f) = true).
Proof.
  destruct config as [c|]; cbn [_validateConfig].
  - destruct (first_missing (props_get c) required_fields) eqn:E1.
    + split; [discriminate|]. intros (c' & [= <-] & H & _).
      rewrite (proj2 (first_missing_none _ _) H) in E1. discriminate.
    + destruct (first_missing (fun f => member (props_get c (js "credentials")) f)
                  credential_fields) eqn:E2.
      * split; [discriminate|]. intros (c' & [= <-] & _ & H).
        rewrite (proj2 (first_missing_none (fun f => member (props_get c (js "credentials")) f) _) H)
          in E2. discriminate.
      * split; [intros _|reflexivity]. exists c.
        split; [reflexivity|split; apply first_missing_none; assumption].
  - split; [discriminate|intros (c & H & _); discriminate].
Qed.

(** Extra X12: when [apiKey] and [apiSecret] are truthy but
    [credentials] is a truthy value that is not a plain object (a
    string, a number, [true] or an array), [_validateConfig] throws
    "Missing required credential: prefix". *)
Theorem validateConfig_non_object_credentials (c : props) (v : json) :
  opt_truthy (props_get c (js "apiKey")) = true ->
  opt_truthy (props_get c (js "apiSecret")) = true ->
  props_get c (js "credentials") = Some v -> json_truthy v = true ->
  (forall fields, v <> JSObj fields) ->
  _validateConfig (Some c) = Throw (js "Missing required credential: prefix").
Proof.
  intros H1 H2 H3 H4 H5. cbn [_validateConfig first_missing required_fields].
  rewrite H1, H2, H3. cbn [opt_truthy]. rewrite H4. cbn [credential_fields first_missing].
  destruct v as [| | | | |fields]; try (exfalso; eapply H5; reflexivity); reflexivity.
Qed.

Lemma validateConfig_non_object_credentials_witness :
  _validateConfig (Some [(js "apiKey", Some (JSStr (js "k"))); (js "apiSecret", Some (JSStr (js "s")));
                         (js "credentials", Some (JSStr (js "user:1234")))])
  = Throw (js "Missing required credential: prefix").
Proof.
  apply (validateConfig_non_object_credentials _ (JSStr (js "user:1234")));
    [reflexivity|reflexivity|reflexivity|reflexivity|intros fields; discriminate].
Defined.

(** Extra X13: the headers sent by [_makeHttpRequest]: a truthy token
    always sets [Token], overriding a caller's [Token] header; every
    other header is the caller's ([options.headers], the last property of
    that name), falling back to the built-in default, so caller headers
    override the defaults. *)
Theorem request_headers_lookup (options_headers : option props) (token : option jsstr) (k : jsstr) :
  props_get (request_headers options_headers token) k
  = if bool_decide (k = js "Token") && match token with Some (_ :: _) => true | _ => false end
    then option_map JSStr token
    else match props_lookup (reverse (match options_headers with Some h => h | None => [] end)) k with
         | Some v => v
         | None => props_get default_headers k
         end.
Proof.
  unfold request_headers.
  assert (Hbase : props_get (props_assign default_headers
                               (match options_headers with Some h => h | None => [] end)) k
                  = match props_lookup (reverse (match options_headers with Some h => h | None => [] end)) k with
                    | Some v => v | None => props_get default_headers k end).
  { unfold props_get at 1. rewrite props_lookup_assign.
    destruct (props_lookup (reverse _) k); reflexivity. }
  destruct token as [[|c t]|]; rewrite ?andb_false_r; cbn [bool_decide_eq_true];
    try exact Hbase.
  rewrite bool_decide_false by discriminate. rewrite andb_true_r.
  unfold props_get at 1. rewrite props_lookup_set.
  destruct (bool_decide (k = js "Token")); [reflexivity|exact Hbase].
Qed.

End ClientConfigProofs.

Module HttpEndProofs.
Import QuantifySpec.

(** Evaluate [bool_decide] on literal property names. *)
Ltac keys_eval :=
  cbn [props_lookup];
  repeat match goal with
  | |- context [bool_decide (?a = ?b)] =>
      first [ rewrite (bool_decide_true (a = b)) by reflexivity
            | rewrite (bool_decide_false (a = b)) by (vm_compute; discriminate) ];
      cbn [props_lookup]
  end.

Ltac json_get_set :=
  repeat first [ rewrite QuantifyMoreProofs.json_get_set_eq
               | rewrite QuantifyMoreProofs.json_get_set_ne by (vm_compute; discriminate) ].

Section Handler.
Variable jsencrypt_decrypt : jsstr -> option jsstr.
Variable base64_decode : jsstr -> list Z.
Variable base64_encode : list Z -> jsstr.
Variable decodeURIComponent : jsstr -> exc jsstr.
Variable json_parse : jsstr -> exc json.
Variable aes_decrypt_utf8 : jsstr -> exc jsstr.
Variable aes_decrypt_ciphertext_utf8 : jsstr -> exc jsstr.

Let handler := on_end jsencrypt_decrypt base64_decode base64_encode decodeURIComponent json_parse
                 aes_decrypt_utf8 aes_decrypt_ciphertext_utf8.
Let process := processApiResponse jsencrypt_decrypt base64_decode base64_encode decodeURIComponent
                 json_parse aes_decrypt_utf8 aes_decrypt_ciphertext_utf8.
Let rsa := decryptRSAResponse jsencrypt_decrypt base64_decode base64_encode decodeURIComponent json_parse.

(** Extra X14: the request promise resolves with an [error] property
    exactly when the received text is not JSON or is the JSON [null];
    it then carries the raw text as [data] and no [_decryptionMethod]
    or [_originalData]. *)
Theorem on_end_error_cases (statusCode : Z) (resHeaders : option json) (data : jsstr) :
  (props_lookup (handler statusCode resHeaders data) (js "error") <> None <->
   exc_ok (json_parse data) = false \/ json_parse data = Ok JSNull) /\
  (props_lookup (handler statusCode resHeaders data) (js "error") <> None ->
   props_get (handler statusCode resHeaders data) (js "data") = Some (JSStr data) /\
   props_lookup (handler statusCode resHeaders data) (js "_decryptionMethod") = None /\
   props_lookup (handler statusCode resHeaders data) (js "_originalData") = None).
Proof.
  unfold handler, on_end.
  destruct (json_parse data) as [v|e]; [destruct v as [| | | | |fields]|];
    cbn [processApiResponse_value exc_ok]; unfold props_get; keys_eval;
    (split; [split|]); intros H;
    solve [ auto | exfalso; apply H; reflexivity
          | destruct H as [H|H]; discriminate ].
Qed.

(** Extra X15: when the received text parses to an object whose [data]
    is a non-empty string that RSA-decrypts to a truthy value, the
    request promise resolves with the decrypted value as [data],
    [_decryptionMethod: 'RSA'], the parsed envelope as [_originalData]
    and no [error]. *)
Theorem on_end_rsa (statusCode : Z) (resHeaders : option json) (data : jsstr)
    (fields : list (jsstr * json)) (s : jsstr) :
  json_parse data = Ok (JSObj fields) ->
  json_get fields (js "data") = Some (JSStr s) -> s <> [] ->
  json_truthy (rsa s) = true ->
  props_get (handler statusCode resHeaders data) (js "data") = Some (rsa s) /\
  props_get (handler statusCode resHeaders data) (js "_decryptionMethod") = Some (JSStr (js "RSA")) /\
  props_get (handler statusCode resHeaders data) (js "_originalData") = Some (JSObj fields) /\
  props_lookup (handler statusCode resHeaders data) (js "error") = None.
Proof.
  intros Hp Hd Hs Hr. unfold handler, on_end. rewrite Hp. cbn [processApiResponse_value].
  unfold processApiResponse. rewrite Hd, (bool_decide_false (s = [])) by exact Hs.
  cbv zeta. unfold rsa in Hr. rewrite Hr.
  unfold props_get. keys_eval. cbn [member]. json_get_set.
  repeat split; reflexivity.
Qed.

End Handler.

Lemma on_end_error_cases_witness :
  props_get (on_end (fun _ => None) (fun _ => []) (fun _ => []) Ok HttpSpec.parse_fails
               (fun _ => Ok []) (fun _ => Ok []) 502 None (js "Bad Gateway")) (js "data")
  = Some (JSStr (js "Bad Gateway")).
Proof.
  destruct (on_end_error_cases (fun _ => None) (fun _ => []) (fun _ => []) Ok HttpSpec.parse_fails
              (fun _ => Ok []) (fun _ => Ok []) 502 None (js "Bad Gateway")) as [[_ Hin] Himp].
  apply Himp, Hin. left. reflexivity.
Defined.

Lemma on_end_rsa_witness :
  props_get (on_end toy_rsa (fun _ => []) (fun _ => []) Ok HttpSpec.envelope_parse
               (fun _ => Ok []) (fun _ => Ok []) 200 None (js "body")) (js "_decryptionMethod")
  = Some (JSStr (js "RSA")).
Proof.
  apply (on_end_rsa toy_rsa (fun _ => []) (fun _ => []) Ok HttpSpec.envelope_parse
           (fun _ => Ok []) (fun _ => Ok []) 200 None (js "body")
           [(js "code", JSNum 200); (js "data", JSStr (js "abc"))] (js "abc"));
    [vm_compute; reflexivity|reflexivity|discriminate|vm_compute; reflexivity].
Defined.

End HttpEndProofs.

(** ** Further properties of [decryption.js] *)

Module DecryptionMoreProofs.
Import QuantifySpec.

Lemma replace_plus_cons (c : Z) (s : jsstr) :
  replace_plus (c :: s) = (if c =? 43 then js "%20" else [c]) ++ replace_plus s.
Proof. reflexivity. Qed.

(** Extra X16: [s.replace(/\+/g, '%20')] leaves no ['+'] in its
    result, grows the string by two code units per ['+'], and is the
    identity on strings without ['+']. *)
Theorem replace_plus_spec (s : jsstr) :
  (43 ∉ replace_plus s) /\
  length (replace_plus s) = (length s + 2 * length (filter (fun c : Z => c = 43%Z) s))%nat /\
  (43 ∉ s -> replace_plus s = s).
Proof.
  induction s as [|c s (IH1 & IH2 & IH3)]; [split; [apply not_elem_of_nil|split; [reflexivity|auto]]|].
  rewrite replace_plus_cons, filter_cons.
  destruct (Z.eqb_spec c 43) as [->|Hc].
  - rewrite decide_True by reflexivity. split; [|split].
    + rewrite elem_of_app. intros [H|H]; [|exact (IH1 H)]. vm_compute in H.
      repeat (apply elem_of_cons in H as [H|H]; [discriminate|]). apply not_elem_of_nil in H. exact H.
    + rewrite length_app. cbn [length]. rewrite IH2. cbn. lia.
    + intros H. exfalso. apply H. apply elem_of_cons. left. reflexivity.
  - rewrite decide_False by exact Hc. split; [|split].
    + rewrite elem_of_app. intros [H|H]; [|exact (IH1 H)].
      apply list_elem_of_singleton in H. congruence.
    + rewrite length_app. cbn [length]. rewrite IH2. lia.
    + intros H. apply not_elem_of_cons in H as [_ H]. cbn [app]. by rewrite (IH3 H).
Qed.

Lemma replace_plus_spec_witness :
  replace_plus (js "a+b") = js "a%20b" /\ (43 ∉ js "ab") /\ replace_plus (js "ab") = js "ab".
Proof.
  assert (Hn : 43 ∉ js "ab").
  { vm_compute. intros H. repeat (apply elem_of_cons in H as [H|H]; [discriminate|]).
    apply not_elem_of_nil in H. exact H. }
  split; [reflexivity|]. split; [exact Hn|].
  destruct (replace_plus_spec (js "ab")) as (_ & _ & H). exact (H Hn).
Defined.

Section More.
Variable jsencrypt_decrypt : jsstr -> option jsstr.
Variable base64_decode : jsstr -> list Z.
Variable base64_encode : list Z -> jsstr.
Variable decodeURIComponent : jsstr -> exc jsstr.
Variable json_parse : jsstr -> exc json.
Variable aes_decrypt_utf8 : jsstr -> exc jsstr.
Variable aes_decrypt_ciphertext_utf8 : jsstr -> exc jsstr.

Let rsa := decryptRSAResponse jsencrypt_decrypt base64_decode base64_encode decodeURIComponent json_parse.
Let aes := decryptAESString aes_decrypt_utf8 aes_decrypt_ciphertext_utf8.
Let process := processApiResponse jsencrypt_decrypt base64_decode base64_encode decodeURIComponent
                 json_parse aes_decrypt_utf8 aes_decrypt_ciphertext_utf8.

Ltac json_fields_simpl :=
  repeat first [ rewrite QuantifyMoreProofs.json_get_set_eq
               | rewrite QuantifyMoreProofs.json_get_set_ne by (vm_compute; discriminate)
               | rewrite QuantifyMoreProofs.json_get_set_ne by congruence ].

(** Extra X17: [processApiResponse] returns the response unchanged when
    its [data] is missing, is not a string, or is the empty string:
    no decryption is attempted. *)
Theorem processApiResponse_not_encrypted (response : list (jsstr * json)) :
  (forall s, json_get response (js "data") = Some (JSStr s) -> s = []) ->
  process response = response.
Proof.
  intros H. unfold process, processApiResponse.
  destruct (json_get response (js "data")) as [[| | | s | |]|] eqn:Hd; try reflexivity.
  rewrite (H s eq_refl). reflexivity.
Qed.

(** Extra X18: when [data] is a non-empty string [s] that RSA-decrypts
    to a truthy value, [processApiResponse] replaces [data] by it, sets
    [_originalEncryptedData] to [s] and [_decryptionMethod] to ['RSA'],
    keeps every other property, and never consults AES: the result is
    the same whatever the AES primitives do. *)
Theorem processApiResponse_rsa (response : list (jsstr * json)) (s : jsstr) :
  json_get response (js "data") = Some (JSStr s) -> s <> [] ->
  json_truthy (rsa s) = true ->
  json_get (process response) (js "data") = Some (rsa s) /\
  json_get (process response) (js "_originalEncryptedData") = Some (JSStr s) /\
  json_get (process response) (js "_decryptionMethod") = Some (JSStr (js "RSA")) /\
  (forall k, k <> js "data" -> k <> js "_originalEncryptedData" -> k <> js "_decryptionMethod" ->
     json_get (process response) k = json_get response k) /\
  (forall aes1 aes2,
     processApiResponse jsencrypt_decrypt base64_decode base64_encode decodeURIComponent
       json_parse aes1 aes2 response = process response).
Proof.
  intros Hd Hs Hr.
  assert (E : forall aes1 aes2,
     processApiResponse jsencrypt_decrypt base64_decode base64_encode decodeURIComponent
       json_parse aes1 aes2 response
     = json_set (json_set (json_set response (js "data") (rsa s))
                  (js "_originalEncryptedData") (JSStr s)) (js "_decryptionMethod") (JSStr (js "RSA"))).
  { intros aes1 aes2. unfold processApiResponse. rewrite Hd, (bool_decide_false (s = [])) by exact Hs.
    cbv zeta. unfold rsa in Hr. rewrite Hr. reflexivity. }
  unfold process. rewrite E.
  split; [json_fields_simpl; reflexivity|]. split; [json_fields_simpl; reflexivity|].
  split; [json_fields_simpl; reflexivity|]. split.
  - intros k H1 H2 H3. json_fields_simpl. reflexivity.
  - intros aes1 aes2. rewrite !E. reflexivity.
Qed.

(** Extra X19: when RSA decryption of the non-empty string [s] gives a
    falsy value and AES decryption gives [a], [processApiResponse] sets
    [data] to [JSON.parse(a)], or to [a] itself when it is not JSON,
    [_originalEncryptedData] to [s] and [_decryptionMethod] to ['AES'],
    and keeps every other property. *)
Theorem processApiResponse_aes (response : list (jsstr * json)) (s a : jsstr) :
  json_get response (js "data") = Some (JSStr s) -> s <> [] ->
  json_truthy (rsa s) = false -> aes s = Some a ->
  json_get (process response) (js "data")
    = Some (match json_parse a with Ok v => v | Throw _ => JSStr a end) /\
  json_get (process response) (js "_originalEncryptedData") = Some (JSStr s) /\
  json_get (process response) (js "_decryptionMethod") = Some (JSStr (js "AES")) /\
  (forall k, k <> js "data" -> k <> js "_originalEncryptedData" -> k <> js "_decryptionMethod" ->
     json_get (process response) k = json_get response k).
Proof.
  intros Hd Hs Hr Ha. unfold process, processApiResponse.
  rewrite Hd, (bool_decide_false (s = [])) by exact Hs.
  cbv zeta. unfold rsa in Hr. rewrite Hr. unfold aes in Ha. rewrite Ha.
  split; [json_fields_simpl; reflexivity|]. split; [json_fields_simpl; reflexivity|].
  split; [json_fields_simpl; reflexivity|].
  intros k H1 H2 H3. json_fields_simpl. reflexivity.
Qed.

(** Extra X20: if the single-block RSA decryption of [s] returns the
    empty string, [decryptRSAResponse] returns [null] without trying
    the chunked decryption. *)
Theorem decryptRSAResponse_empty_single_block (s : jsstr) :
  jsencrypt_decrypt s = Some [] -> rsa s = JSNull.
Proof.
  intros H. unfold rsa, decryptRSAResponse, decryptRSAResponse_body, rsa_decrypted_result.
  rewrite H. reflexivity.
Qed.

(** Extra X21: [decryptAESString] never returns the empty string, and
    returns [null] whenever the direct decryption throws, without trying
    the ciphertext decryption. *)
Theorem decryptAESString_cases (s : jsstr) :
  aes s <> Some [] /\
  (forall e, aes_decrypt_utf8 s = Throw e -> aes s = None).
Proof.
  unfold aes, decryptAESString. split.
  - destruct (aes_decrypt_utf8 s) as [r|e]; [|discriminate].
    destruct (bool_decide (r = [])); [destruct (aes_decrypt_ciphertext_utf8 s) as [r'|e]|];
      [destruct (bool_decide_reflect (r' = [])); [discriminate|congruence]|discriminate|].
    destruct (bool_decide_reflect (r = [])); [discriminate|congruence].
  - intros e ->. reflexivity.
Qed.

End More.

Lemma processApiResponse_not_encrypted_witness :
  processApiResponse toy_rsa (fun _ => []) (fun _ => []) Ok toy_parse (fun _ => Ok []) (fun _ => Ok [])
    [(js "code", JSNum 200); (js "data", JSNum 1)]
  = [(js "code", JSNum 200); (js "data", JSNum 1)].
Proof.
  apply (processApiResponse_not_encrypted toy_rsa (fun _ => []) (fun _ => []) Ok toy_parse
           (fun _ => Ok []) (fun _ => Ok [])).
  intros s H. vm_compute in H. discriminate.
Defined.

Lemma processApiResponse_rsa_witness :
  json_get (processApiResponse toy_rsa (fun _ => []) (fun _ => []) Ok toy_parse
              (fun _ => Ok []) (fun _ => Ok []) [(js "data", JSStr (js "abc"))])
    (js "_decryptionMethod")
  = Some (JSStr (js "RSA")).
Proof.
  destruct (processApiResponse_rsa toy_rsa (fun _ => []) (fun _ => []) Ok toy_parse
              (fun _ => Ok []) (fun _ => Ok []) [(js "data", JSStr (js "abc"))] (js "abc")
              eq_refl ltac:(discriminate) ltac:(vm_compute; reflexivity)) as (_ & _ & H & _).
  exact H.
Defined.

Lemma processApiResponse_aes_witness :
  json_get (processApiResponse (fun _ => None) (fun _ => []) (fun _ => []) Ok toy_parse
              (fun _ => Ok (js "plain")) (fun _ => Ok []) [(js "data", JSStr (js "U2FsdGVk"))])
    (js "_decryptionMethod")
  = Some (JSStr (js "AES")).
Proof.
  destruct (processApiResponse_aes (fun _ => None) (fun _ => []) (fun _ => []) Ok toy_parse
              (fun _ => Ok (js "plain")) (fun _ => Ok []) [(js "data", JSStr (js "U2FsdGVk"))]
              (js "U2FsdGVk") (js "plain")
              eq_refl ltac:(discriminate) ltac:(vm_compute; reflexivity) ltac:(vm_compute; reflexivity))
    as (_ & _ & H & _).
  exact H.
Defined.

Lemma decryptRSAResponse_empty_single_block_witness :
  decryptRSAResponse (fun _ => Some []) (fun _ => []) (fun _ => []) Ok toy_parse (js "abc") = JSNull.
Proof.
  apply (decryptRSAResponse_empty_single_block (fun _ => Some []) (fun _ => []) (fun _ => []) Ok
           toy_parse (js "abc")).
  reflexivity.
Defined.

Lemma decryptAESString_cases_witness :
  decryptAESString (fun _ => Throw (js "Malformed UTF-8 data")) (fun _ => Ok (js "plain")) (js "abc")
  = None.
Proof.
  destruct (decryptAESString_cases (fun _ => Throw (js "Malformed UTF-8 data")) (fun _ => Ok (js "plain"))
              (js "abc")) as [_ H].
  exact (H (js "Malformed UTF-8 data") eq_refl).
Defined.

End DecryptionMoreProofs.
